(** * image_editor.py: the edit pipeline and the undo/redo history

    A shallow embedding of [src/image_editor.py]: the three classes that
    carry state ([ImageProcessor], [ImageHistory], [ImageEditorApp]) and the
    OpenCV primitives they call.

    Modelling conventions.
    - A colour image is the numpy array [cv2.imread] returns: [h] rows of
      [w] pixels of three 8-bit samples in B, G, R order.  It is a list of
      rows; a sample is a [Z].
    - No statement of the source writes into an existing array: every OpenCV
      call returns a new array and the classes only rebind attributes.  An
      array is therefore modelled by its value, and [img.copy()] is the
      identity on values.
    - Python lists used as stacks keep their orientation: [append] adds at
      the end and [pop] removes the last element.
    - An exception is a value; a method that can raise returns a [result],
      and a Tk callback returns the state it leaves behind together with
      what the user or the caller observes ([signal]). *)

From Stdlib Require Import Ascii String ZArith QArith Qabs List Bool Lia.
Import ListNotations.
Local Open Scope Z_scope.

(** ** Exceptions *)

Inductive exn : Type :=
| ValueError (msg : string)
| AttributeError (msg : string)
| OverflowError (msg : string)
| cv2_error (msg : string).

Definition result (A : Type) : Type := (exn + A)%type.
Definition Ok {A : Type} (a : A) : result A := inr a.
Definition Raise {A : Type} (e : exn) : result A := inl e.

(** ** Arrays *)

Record pixel : Type := BGR { blue : Z; green : Z; red : Z }.

Definition image : Type := list (list pixel).
Definition gray_image : Type := list (list Z).

(** [img.shape[:2]]: rows first, then columns. *)
Definition shape {A : Type} (img : list (list A)) : nat * nat :=
  (length img, length (hd [] img)).

Definition height {A : Type} (img : list (list A)) : nat := fst (shape img).
Definition width {A : Type} (img : list (list A)) : nat := snd (shape img).

(** The invariant of every array the decoder returns: rectangular, with
    both dimensions positive. *)
Definition well_formed {A : Type} (img : list (list A)) : bool :=
  (0 <? height img)%nat && (0 <? width img)%nat
  && forallb (fun row => (length row =? width img)%nat) img.

Definition map_pixels {A B : Type} (f : A -> B) (img : list (list A))
  : list (list B) :=
  map (map f) img.

Definition map_samples (f : Z -> Z) (p : pixel) : pixel :=
  BGR (f (blue p)) (f (green p)) (f (red p)).

(** ** The OpenCV primitives the editor calls

    OpenCV is a library the editor imports, not part of the repository.
    Each primitive below follows the library's documented behaviour on 8-bit
    arrays; where the library computes in floating point the comment of the
    definition says what the model keeps. *)

Module cv2.

(** [saturate_cast<uchar>] on an integer. *)
Definition saturate_cast_uchar (z : Z) : Z := Z.max 0 (Z.min 255 z).

(** [cvRound]: to the nearest integer, ties to the even one. *)
Definition cvRound (q : Q) : Z :=
  let n := Qnum q in
  let d := Zpos (Qden q) in
  let f := n / d in
  let r2 := 2 * (n mod d) in
  if r2 <? d then f
  else if d <? r2 then f + 1
  else if Z.even f then f else f + 1.

(** [convertScaleAbs] on 8-bit input: scale, shift, take the absolute
    value, round and saturate.  OpenCV evaluates [alpha*src + beta] in
    single precision and rounds into a 32-bit integer; the model evaluates
    it exactly.  The two agree where the exact value is a single-precision
    number within the 32-bit range: for an integral [alpha] and a [beta]
    of the brightness slider, -100 to 100.  For a contrast such as 2.1 the
    library can be off by one from the model, and far outside the sliders
    its 32-bit rounding wraps. *)
Definition convertScaleAbs_sample (alpha : Q) (beta : Z) (v : Z) : Z :=
  saturate_cast_uchar (cvRound (Qabs (alpha * inject_Z v + inject_Z beta))).

Definition convertScaleAbs (src : image) (alpha : Q) (beta : Z) : image :=
  map_pixels (map_samples (convertScaleAbs_sample alpha beta)) src.

(** [cvtColor(_, COLOR_BGR2GRAY)] on 8-bit input: the fixed-point
    luminance of OpenCV 4. *)
Definition gray_shift : Z := 15.
Definition RY15 : Z := 9798.
Definition GY15 : Z := 19235.
Definition BY15 : Z := 3735.

Definition luminance (p : pixel) : Z :=
  Z.shiftr (blue p * BY15 + green p * GY15 + red p * RY15
            + Z.shiftl 1 (gray_shift - 1)) gray_shift.

Definition cvtColor_BGR2GRAY (src : image) : gray_image :=
  map_pixels luminance src.

(** [cvtColor(_, COLOR_GRAY2BGR)]: the sample repeated on each channel. *)
Definition cvtColor_GRAY2BGR (src : gray_image) : image :=
  map_pixels (fun y => BGR y y y) src.

(** [flip]: code 0 mirrors top to bottom, a positive code left to right,
    a negative code both. *)
Definition flip {A : Type} (src : list (list A)) (flipCode : Z)
  : list (list A) :=
  if flipCode =? 0 then rev src
  else if 0 <? flipCode then map (@rev A) src
  else rev (map (@rev A) src).

(** [transpose]: one output row per input column. *)
Fixpoint zip_cons {A : Type} (row : list A) (cols : list (list A))
  : list (list A) :=
  match row, cols with
  | x :: row', c :: cols' => (x :: c) :: zip_cons row' cols'
  | _, _ => []
  end.

Definition transpose_w {A : Type} (w : nat) (src : list (list A))
  : list (list A) :=
  fold_right zip_cons (repeat [] w) src.

Definition transpose {A : Type} (src : list (list A)) : list (list A) :=
  transpose_w (width src) src.

(** The three rotation codes, the only ones the editor passes.  What the
    library does with another integer depends on its version and is left
    out of the model. *)
Inductive RotateFlags : Type :=
| ROTATE_90_CLOCKWISE
| ROTATE_180
| ROTATE_90_COUNTERCLOCKWISE.

(** [rotate]: a transposition followed by a flip, as the library does
    it. *)
Definition rotate {A : Type} (src : list (list A)) (rotateCode : RotateFlags)
  : result (list (list A)) :=
  match rotateCode with
  | ROTATE_90_CLOCKWISE => Ok (flip (transpose src) 1)
  | ROTATE_180 => Ok (flip src (-1))
  | ROTATE_90_COUNTERCLOCKWISE => Ok (flip (transpose src) 0)
  end.

(** The value of one output pixel of a resampling: source, requested size
    (width, height), row and column of the output pixel. *)
Definition resampler : Type := image -> Z * Z -> nat -> nat -> pixel.

(** [resize(src, dsize, interpolation=...)] with [fx] and [fy] left at 0:
    the source must not be empty and the requested size must be positive
    in both directions ([Size::empty] is [width <= 0 || height <= 0]);
    the output has exactly the requested size.  The area averaging that
    fills it is floating-point work of the library and stays a
    parameter. *)
Definition resize (interpolation : resampler) (src : image) (dsize : Z * Z)
  : result image :=
  let '(dw, dh) := dsize in
  if ((height src =? 0)%nat || (width src =? 0)%nat)%bool
  then Raise (cv2_error "!ssize.empty()")
  else if ((dw <=? 0) || (dh <=? 0))%bool
  then Raise (cv2_error "inv_scale_x > 0")
  else Ok (map (fun y => map (interpolation src dsize y)
                             (seq 0 (Z.to_nat dw)))
               (seq 0 (Z.to_nat dh))).

(** An array of [h] rows of [w] entries, given entry by entry. *)
Definition grid {A : Type} (h w : nat) (f : nat -> nat -> A)
  : list (list A) :=
  map (fun y => map (f y) (seq 0 w)) (seq 0 h).

(** The value of one output pixel of a smoothing: source, kernel size
    (width, height), row and column of the pixel. *)
Definition smoother : Type := image -> Z * Z -> nat -> nat -> pixel.

(** [GaussianBlur(src, ksize, 0)]: both sides of the kernel must be
    positive and odd; a 1 by 1 kernel copies the source; the output has the
    size of the source.  The weighted sums that fill it are floating-point
    work of the library and stay a parameter.  The model holds for kernel
    sides that fit the library's C integers, as all sides the blur slider
    can produce do; a larger side is refused by the binding before the
    library sees it. *)
Definition GaussianBlur (kernel : smoother) (src : image) (ksize : Z * Z)
  : result image :=
  let '(kw, kh) := ksize in
  if ((kw =? 1) && (kh =? 1))%bool then Ok src
  else if ((0 <? kw) && Z.odd kw && (0 <? kh) && Z.odd kh)%bool
  then Ok (grid (height src) (width src) (kernel src ksize))
  else Raise (cv2_error "ksize.width > 0 && ksize.width % 2 == 1").

(** Whether an output pixel of the edge detection is an edge: source, the
    two thresholds, row and column. *)
Definition edge_detector : Type := gray_image -> Z * Z -> nat -> nat -> bool.

(** [Canny(image, threshold1, threshold2)]: a single-channel map of the
    size of the source, 255 on edges and 0 elsewhere.  Which pixels are
    edges is gradient arithmetic of the library and stays a parameter. *)
Definition Canny (detector : edge_detector) (src : gray_image)
           (threshold1 threshold2 : Z) : gray_image :=
  grid (height src) (width src)
       (fun y x =>
          if detector src (threshold1, threshold2) y x then 255 else 0).

End cv2.

(** ** Python helpers *)

(** [int(a / b)] on integers: the true quotient truncated towards zero.
    Python rounds [a / b] to a double first; for [|a| < 2^53] and [b = 100]
    no quotient is rounded across an integer, so the truncation is that of
    the exact quotient.  This exact quotient is what [resize] below uses;
    [python_int_truediv] is the computation through the double, and the
    two agree on that range. *)
Definition int_truediv (a b : Z) : Z := Z.quot a b.




(** [list.pop()]: the last element and the list without it; [None] stands
    for the empty list, on which the source never calls it. *)
Fixpoint pop {A : Type} (l : list A) : option (list A * A) :=
  match l with
  | [] => None
  | x :: l' =>
      match pop l' with
      | None => Some ([], x)
      | Some (rest, top) => Some (x :: rest, top)
      end
  end.

(** [str(e)] of the exceptions raised here. *)
Definition str (e : exn) : string :=
  match e with
  | ValueError msg | AttributeError msg | OverflowError msg
  | cv2_error msg => msg
  end.

(** [s.split(sep)] for a one-character separator: the pieces between the
    separators, at least one. *)
Fixpoint split (sep : Ascii.ascii) (s : string) : list string :=
  match s with
  | EmptyString => [EmptyString]
  | String c s' =>
      if Ascii.eqb c sep then EmptyString :: split sep s'
      else match split sep s' with
           | [] => [String c EmptyString]
           | piece :: pieces => String c piece :: pieces
           end
  end.

(** [c in s] for a character. *)
Fixpoint contains (c : Ascii.ascii) (s : string) : bool :=
  match s with
  | EmptyString => false
  | String c' s' => (Ascii.eqb c' c || contains c s')%bool
  end.

(** ** class ImageProcessor *)

Module ImageProcessor.

Record t : Type := mk {
  current_cv_image : option image;
  original_reference : option image
}.

(** [__init__] *)
Definition init : t := mk None None.

(** A method that hands [self.current_cv_image] to OpenCV.  With [None]
    the colour conversions raise; other primitives hand [None] back
    instead.  Every callback tests for [None] before it calls a method, so
    that case is never run and the model keeps the one outcome. *)
Definition on_current {A : Type} (self : t) (f : image -> result A)
  : result A :=
  match current_cv_image self with
  | None => Raise (cv2_error "src is not a numpy array")
  | Some img => f img
  end.

Section Methods.

(** The decoder: what [cv2.imread] returns for each path. *)
Variable imread : string -> option image.
(** The values [cv2.INTER_AREA] resampling computes. *)
Variable INTER_AREA : cv2.resampler.

(** [load]: the attribute is assigned before the result is tested. *)
Definition load (path : string) (self : t) : t * result image :=
  let self1 := mk (imread path) (original_reference self) in
  match current_cv_image self1 with
  | None =>
      (self1,
       Raise (ValueError
                "Failed to load image. Please choose a valid image file."))
  | Some img => (mk (Some img) (Some img), Ok img)
  end.

Definition grayscale (self : t) : result image :=
  on_current self (fun img =>
    let gray := cv2.cvtColor_BGR2GRAY img in
    Ok (cv2.cvtColor_GRAY2BGR gray)).

(** [brightness] is the integer of the slider, [contrast] its decimal
    value. *)
Definition brightness_contrast (brightness : Z) (contrast : Q) (self : t)
  : result image :=
  on_current self (fun img =>
    Ok (cv2.convertScaleAbs img contrast brightness)).

Definition rotate (angle_code : cv2.RotateFlags) (self : t) : result image :=
  on_current self (fun img => cv2.rotate img angle_code).

Definition flip (axis : Z) (self : t) : result image :=
  on_current self (fun img => Ok (cv2.flip img axis)).

Definition resize (scale_percent : Z) (self : t) : result image :=
  match original_reference self with
  | None =>
      Raise (AttributeError "'NoneType' object has no attribute 'shape'")
  | Some original =>
      let '(h, w) := shape original in
      let new_dim :=
        (int_truediv (Z.of_nat w * scale_percent) 100,
         int_truediv (Z.of_nat h * scale_percent) 100) in
      cv2.resize INTER_AREA original new_dim
  end.

(** The values [cv2.GaussianBlur] and [cv2.Canny] compute. *)
Variable GAUSSIAN : cv2.smoother.
Variable CANNY : cv2.edge_detector.

(** [value] is the integer of the slider. *)
Definition blur (value : Z) (self : t) : result image :=
  on_current self (fun img =>
    let k := Z.max 1 (value * 2 + 1) in
    cv2.GaussianBlur GAUSSIAN img (k, k)).

Definition edges (self : t) : result image :=
  on_current self (fun img =>
    let gray := cv2.cvtColor_BGR2GRAY img in
    let edge_map := cv2.Canny CANNY gray 100 200 in
    Ok (cv2.cvtColor_GRAY2BGR edge_map)).

End Methods.

End ImageProcessor.

(** ** class ImageHistory *)

Module ImageHistory.

Record t : Type := mk {
  undo_stack : list image;
  redo_stack : list image
}.

Definition init : t := mk [] [].

Definition reset (self : t) : t := mk [] [].

Definition save_state (img : option image) (self : t) : t :=
  match img with
  | Some i => mk (undo_stack self ++ [i]) []
  | None => self
  end.

(** [undo] and [redo] return the new history and the image handed back.
    The test [if self.undo_stack] is the [None] case of [pop]. *)
Definition undo (current_img : image) (self : t) : t * image :=
  match pop (undo_stack self) with
  | Some (rest, top) => (mk rest (redo_stack self ++ [current_img]), top)
  | None => (self, current_img)
  end.

Definition redo (current_img : image) (self : t) : t * image :=
  match pop (redo_stack self) with
  | Some (rest, top) => (mk (undo_stack self ++ [current_img]) rest, top)
  | None => (self, current_img)
  end.

End ImageHistory.

(** ** class LoadingScreen *)

Module LoadingScreen.

(** Where the parent window is and how large, as Tk reports it. *)
Record parent_window : Type := {
  winfo_x : Z;
  winfo_y : Z;
  winfo_width : Z;
  winfo_height : Z
}.

(** The overlay: a window whose geometry is [WxH+x+y]. *)
Record Toplevel : Type := {
  geometry_width : Z;
  geometry_height : Z;
  geometry_x : Z;
  geometry_y : Z
}.

Record t : Type := mk {
  loading_window : option Toplevel;
  is_showing : bool
}.

Definition init : t := mk None false.

Definition show (parent : parent_window) (self : t) : t :=
  if is_showing self then self
  else
    let x := winfo_x parent + (winfo_width parent - 300) / 2 in
    let y := winfo_y parent + (winfo_height parent - 150) / 2 in
    mk (Some {| geometry_width := 300; geometry_height := 150;
                geometry_x := x; geometry_y := y |})
       true.

Definition hide (self : t) : t :=
  match loading_window self with
  | Some _ => mk None false
  | None => self
  end.

(** The calls a callback makes on the overlay. *)
Inductive call : Type :=
| Show (parent : parent_window)
| Hide.

Definition run_call (c : call) (self : t) : t :=
  match c with
  | Show parent => show parent self
  | Hide => hide self
  end.

Definition run (calls : list call) (self : t) : t :=
  fold_left (fun s c => run_call c s) calls self.

End LoadingScreen.

(** ** class ImageEditorApp *)

(** What a callback leaves behind besides the state: it returned, it showed
    an error box, or an exception left it. *)
Inductive signal : Type :=
| Done
| ShowError (title message : string)
| Raised (e : exn).

Module ImageEditorApp.

Record t : Type := mk {
  processor : ImageProcessor.t;
  history : ImageHistory.t;
  current_path : option string
}.

Definition init : t := mk ImageProcessor.init ImageHistory.init None.

Definition current (self : t) : option image :=
  ImageProcessor.current_cv_image (processor self).

Definition original (self : t) : option image :=
  ImageProcessor.original_reference (processor self).

Definition set_current (img : image) (self : t) : t :=
  mk (ImageProcessor.mk (Some img) (original self))
     (history self) (current_path self).

Definition set_history (h : ImageHistory.t) (self : t) : t :=
  mk (processor self) h (current_path self).

(** The closures handed to [process_with_loading] read the processor and
    return an array or raise. *)
Definition operation : Type := ImageProcessor.t -> result image.

Definition process_with_loading (op : operation) (self : t) : t * signal :=
  match current self with
  | None => (self, ShowError "No image" "Please open an image first.")
  | Some cur =>
      match op (processor self) with
      | inl e => (self, Raised e)
      | inr new_img =>
          let self1 :=
            set_history (ImageHistory.save_state (current self)
                                                 (history self)) self in
          (set_current new_img self1, Done)
      end
  end.

Definition undo (self : t) : t * signal :=
  match current self with
  | None => (self, Done)
  | Some cur =>
      let '(h, img) := ImageHistory.undo cur (history self) in
      (set_current img (set_history h self), Done)
  end.

Definition redo (self : t) : t * signal :=
  match current self with
  | None => (self, Done)
  | Some cur =>
      let '(h, img) := ImageHistory.redo cur (history self) in
      (set_current img (set_history h self), Done)
  end.

Section Callbacks.

Variable imread : string -> option image.
Variable INTER_AREA : cv2.resampler.

(** [open_image]: [path] is what the file dialog returned, the empty
    string when it was dismissed. *)
Definition open_image (path : string) (self : t) : t * signal :=
  if String.eqb path "" then (self, Done)
  else
    let '(p, r) := ImageProcessor.load imread path (processor self) in
    match r with
    | inr img => (mk p (ImageHistory.reset (history self)) (Some path), Done)
    | inl e =>
        (mk p (history self) (current_path self),
         ShowError "Open failed" (str e))
    end.

(** [resize_popup]: [percent] is what [askinteger] returned, [None] when
    the dialog was dismissed. *)
Definition resize_popup (percent : option Z) (self : t) : t * signal :=
  match current self with
  | None => (self, ShowError "No image" "Please open an image first.")
  | Some _ =>
      match percent with
      | Some p =>
          if p =? 0 then (self, Done)
          else process_with_loading
                 (ImageProcessor.resize INTER_AREA p) self
      | None => (self, Done)
      end
  end.

End Callbacks.

(** The state a callback leaves, for sequences of clicks. *)
Definition after (f : t -> t * signal) (self : t) : t := fst (f self).

(** What the file callbacks do to the outside, in order: a call of
    [cv2.imwrite], an information box, an error box, an exception that
    leaves the callback. *)
Inductive effect : Type :=
| imwrite_call (path : string) (img : image)
| showinfo (title message : string)
| showerror (title message : string)
| uncaught (e : exn).

Definition get_filename (self : t) : string :=
  match current_path self with
  | Some path =>
      if String.eqb path "" then "Unsaved"
      else last (split "/"%char path) ""%string
  | None => "Unsaved"
  end.

Section Files.

(** What [cv2.imwrite] answers: it raises, or returns whether the file was
    written. *)
Variable imwrite : string -> image -> result bool.

(** [save_as]: [answer] is what the save dialog returns, the empty string
    when it is dismissed. *)
Definition save_as (answer : string) (self : t) : t * list effect :=
  match current self with
  | Some cur =>
      if String.eqb answer "" then (self, [])
      else
        match imwrite answer cur with
        | inl e => (self, [imwrite_call answer cur; uncaught e])
        | inr _ =>
            (mk (processor self) (history self) (Some answer),
             [imwrite_call answer cur;
              showinfo "Saved" "Image saved successfully!"])
        end
  | None => (self, [])
  end.

(** [save]: [answer] is what the save dialog returns in case it is
    opened. *)
Definition save (answer : string) (self : t) : t * list effect :=
  match current self with
  | None => (self, [showerror "No image" "Please open an image first."])
  | Some cur =>
      match current_path self with
      | None => save_as answer self
      | Some path =>
          if String.eqb path "" then save_as answer self
          else
            match imwrite path cur with
            | inl e => (self, [imwrite_call path cur; uncaught e])
            | inr _ =>
                (self,
                 [imwrite_call path cur;
                  showinfo "Saved" "Image saved successfully!"])
            end
      end
  end.

End Files.

End ImageEditorApp.

(** ** Sessions *)

Import ImageEditorApp.

(** The session holds an image. *)
Definition Loaded (self : ImageEditorApp.t) : Prop :=
  exists cur, current self = Some cur.

(** The sessions a successful [open_image] followed by successful edits
    leads to. *)
Inductive reached_by_applies (imread : string -> option image)
  : ImageEditorApp.t -> Prop :=
| reached_load (path : string) (self : ImageEditorApp.t) (img : image) :
    String.eqb path "" = false ->
    imread path = Some img ->
    reached_by_applies imread (after (open_image imread path) self)
| reached_apply (op : operation) (self : ImageEditorApp.t) (new_img : image) :
    reached_by_applies imread self ->
    op (processor self) = Ok new_img ->
    reached_by_applies imread (after (process_with_loading op) self).

(** Sequencing of calls that can raise. *)
Definition bind {A B : Type} (r : result A) (f : A -> result B) : result B :=
  match r with
  | inl e => inl e
  | inr a => f a
  end.

(** ** Arrays again *)

(** [h] rows of [w] entries each. *)
Definition rect {A : Type} (h w : nat) (m : list (list A)) : Prop :=
  length m = h /\ Forall (fun row => length row = w) m.

(** What [cv2.rotate] computes for [ROTATE_90_CLOCKWISE]. *)
Definition rot90 {A : Type} (m : list (list A)) : list (list A) :=
  cv2.flip (cv2.transpose m) 1.

(** What [cv2.rotate] computes for [ROTATE_90_COUNTERCLOCKWISE]. *)
Definition rot270 {A : Type} (m : list (list A)) : list (list A) :=
  cv2.flip (cv2.transpose m) 0.

(** What [ImageProcessor.grayscale] computes on an array. *)
Definition to_gray (img : image) : image :=
  cv2.cvtColor_GRAY2BGR (cv2.cvtColor_BGR2GRAY img).

(** ** Sample data *)

(** Nearest-neighbour sampling, a stand-in for the library's resampling
    wherever a concrete one is needed. *)
Definition nearest : cv2.resampler :=
  fun src dsize y x =>
    let '(dw, dh) := dsize in
    let sy := Z.to_nat (Z.of_nat y * Z.of_nat (height src) / dh) in
    let sx := Z.to_nat (Z.of_nat x * Z.of_nat (width src) / dw) in
    nth sx (nth sy src []) (BGR 0 0 0).

(** A 2x3 picture with pairwise different pixels, and a 1x1 one. *)
Definition photo : image :=
  [ [BGR 10 20 30; BGR 40 50 60; BGR 70 80 90];
    [BGR 15 25 35; BGR 45 55 65; BGR 250 0 128] ].

Definition dot : image := [ [BGR 0 0 255] ].

(** A red picture 200 pixels wide and 100 high. *)
Definition poster : image := repeat (repeat (BGR 0 0 255) 200) 100.

(** A file system with one readable picture. *)
Definition disk (path : string) : option image :=
  if String.eqb path "photo.png" then Some photo else None.

Definition session (img : image) (undo redo : list image) : ImageEditorApp.t :=
  mk (ImageProcessor.mk (Some img) (Some photo))
     (ImageHistory.mk undo redo) (Some "photo.png"%string).

(** ** Buttons *)

(** [create_layout]: the sidebar buttons, with the slider values read when
    the button is pressed, and the command each one is bound to. *)
Inductive button : Type :=
| Grayscale
| EdgeDetection
| ApplyBlur (blur_slider : Z)
| ApplyAdjustments (bright_slider : Z) (contrast_slider : Q)
| Rotate90
| Rotate180
| Rotate270
| FlipHorizontal
| FlipVertical.

(** Everything the user can do in the window: a sidebar button, the resize
    dialog, the toolbar. *)
Inductive click : Type :=
| Press (b : button)
| ResizeImage (percent : option Z)
| Undo
| Redo
| Open (path : string)
| Save (answer : string)
| SaveAs (answer : string).

Section Window.

Variable imread : string -> option image.
Variable imwrite : string -> image -> result bool.
Variable INTER_AREA : cv2.resampler.
Variable GAUSSIAN : cv2.smoother.
Variable CANNY : cv2.edge_detector.

Definition command (b : button) : operation :=
  match b with
  | Grayscale => ImageProcessor.grayscale
  | EdgeDetection => ImageProcessor.edges CANNY
  | ApplyBlur value => ImageProcessor.blur GAUSSIAN value
  | ApplyAdjustments brightness contrast =>
      ImageProcessor.brightness_contrast brightness contrast
  | Rotate90 => ImageProcessor.rotate cv2.ROTATE_90_CLOCKWISE
  | Rotate180 => ImageProcessor.rotate cv2.ROTATE_180
  | Rotate270 => ImageProcessor.rotate cv2.ROTATE_90_COUNTERCLOCKWISE
  | FlipHorizontal => ImageProcessor.flip 1
  | FlipVertical => ImageProcessor.flip 0
  end.

Definition press (b : button) (self : ImageEditorApp.t)
  : ImageEditorApp.t * signal :=
  process_with_loading (command b) self.

(** The session after a click. *)
Definition step (c : click) (self : ImageEditorApp.t) : ImageEditorApp.t :=
  match c with
  | Press b => after (press b) self
  | ResizeImage percent => after (resize_popup INTER_AREA percent) self
  | Undo => after undo self
  | Redo => after redo self
  | Open path => after (open_image imread path) self
  | Save answer => fst (save imwrite answer self)
  | SaveAs answer => fst (save_as imwrite answer self)
  end.

Definition steps (cs : list click) (self : ImageEditorApp.t)
  : ImageEditorApp.t :=
  fold_left (fun s c => step c s) cs self.

End Window.

(** The buttons that turn the image by a quarter. *)
Definition quarter_turn (b : button) : bool :=
  match b with
  | Rotate90 | Rotate270 => true
  | _ => false
  end.

(** ** Predicates on sessions and arrays *)

(** The images of a session in the order they were made: the undo stack,
    the current image, then the redo stack from its top down. *)
Definition timeline (cur : image) (h : ImageHistory.t) : list image :=
  ImageHistory.undo_stack h ++ cur :: rev (ImageHistory.redo_stack h).

Definition uchar (v : Z) : bool := ((0 <=? v) && (v <=? 255))%bool.

Definition uchar_pixel (p : pixel) : bool :=
  (uchar (blue p) && uchar (green p) && uchar (red p))%bool.

Definition is_gray (p : pixel) : bool :=
  ((blue p =? green p) && (green p =? red p))%bool.

Definition is_black_or_white (p : pixel) : bool :=
  match p with
  | BGR b g r =>
      (((b =? 0) && (g =? 0) && (r =? 0))
       || ((b =? 255) && (g =? 255) && (r =? 255)))%bool
  end.

Definition all_pixels {A : Type} (P : A -> bool) (img : list (list A))
  : bool :=
  forallb (forallb P) img.

Definition well_formed_option (img : option image) : bool :=
  match img with
  | Some i => well_formed i
  | None => true
  end.

(** Every array a session holds is rectangular with positive dimensions. *)
Definition well_formed_session (self : ImageEditorApp.t) : bool :=
  (well_formed_option (current self)
   && well_formed_option (original self)
   && forallb well_formed (ImageHistory.undo_stack (history self))
   && forallb well_formed (ImageHistory.redo_stack (history self)))%bool.

(** The same, as propositions. *)
Record session_ok (self : ImageEditorApp.t) : Prop := {
  ok_current : forall img, current self = Some img -> well_formed img = true;
  ok_original : forall img, original self = Some img -> well_formed img = true;
  ok_undo : Forall (fun img => well_formed img = true)
                   (ImageHistory.undo_stack (history self));
  ok_redo : Forall (fun img => well_formed img = true)
                   (ImageHistory.redo_stack (history self))
}.

(** * Properties *)

(** ** Stacks *)

Lemma pop_app {A : Type} (l : list A) (x : A) : pop (l ++ [x]) = Some (l, x).
Proof.
  induction l as [|y l IH]; simpl.
  - reflexivity.
  - now rewrite IH.
Qed.

Lemma pop_None {A : Type} (l : list A) : pop l = None <-> l = [].
Proof.
  destruct l as [|x l]; simpl.
  - tauto.
  - destruct (pop l) as [[rest top]|]; split; discriminate.
Qed.

Lemma pop_Some {A : Type} (l rest : list A) (top : A) :
  pop l = Some (rest, top) <-> l = rest ++ [top].
Proof.
  split.
  - revert rest. induction l as [|x l IH]; simpl; intros rest H.
    + discriminate.
    + destruct (pop l) as [[r t]|] eqn:E.
      * injection H as <- <-. simpl. f_equal. now apply IH.
      * injection H as <- <-. apply pop_None in E. now subst.
  - intros ->. apply pop_app.
Qed.

Lemma pop_length {A : Type} (l rest : list A) (top : A) :
  pop l = Some (rest, top) -> length l = S (length rest).
Proof.
  intros H. apply pop_Some in H. subst.
  rewrite length_app. simpl. lia.
Qed.

(** ** History *)

Lemma app_eta (self : ImageEditorApp.t) (cur : image) :
  current self = Some cur ->
  set_current cur (set_history (history self) self) = self.
Proof.
  destruct self as [[c o] h p]. unfold current. simpl.
  intros ->. reflexivity.
Qed.

Lemma undo_empty (self : ImageEditorApp.t) :
  ImageHistory.undo_stack (history self) = [] -> undo self = (self, Done).
Proof.
  intros H. unfold undo. destruct (current self) as [cur|] eqn:C.
  - unfold ImageHistory.undo. rewrite H. simpl.
    now rewrite app_eta.
  - reflexivity.
Qed.

Lemma redo_empty (self : ImageEditorApp.t) :
  ImageHistory.redo_stack (history self) = [] -> redo self = (self, Done).
Proof.
  intros H. unfold redo. destruct (current self) as [cur|] eqn:C.
  - unfold ImageHistory.redo. rewrite H. simpl.
    now rewrite app_eta.
  - reflexivity.
Qed.

Lemma undo_step (self : ImageEditorApp.t) (cur top : image)
      (rest : list image) :
  current self = Some cur ->
  ImageHistory.undo_stack (history self) = rest ++ [top] ->
  after undo self =
  mk (ImageProcessor.mk (Some top) (original self))
     (ImageHistory.mk rest
        (ImageHistory.redo_stack (history self) ++ [cur]))
     (current_path self).
Proof.
  intros C U. unfold after, undo. rewrite C.
  unfold ImageHistory.undo. rewrite U, pop_app. reflexivity.
Qed.

Lemma redo_step (self : ImageEditorApp.t) (cur top : image)
      (rest : list image) :
  current self = Some cur ->
  ImageHistory.redo_stack (history self) = rest ++ [top] ->
  after redo self =
  mk (ImageProcessor.mk (Some top) (original self))
     (ImageHistory.mk
        (ImageHistory.undo_stack (history self) ++ [cur]) rest)
     (current_path self).
Proof.
  intros C U. unfold after, redo. rewrite C.
  unfold ImageHistory.redo. rewrite U, pop_app. reflexivity.
Qed.

Lemma redo_undo (self : ImageEditorApp.t) :
  Loaded self ->
  ImageHistory.undo_stack (history self) <> [] ->
  after redo (after undo self) = self.
Proof.
  intros [cur C] NE.
  destruct (exists_last NE) as (rest & top & U).
  rewrite (undo_step self cur top rest C U).
  erewrite redo_step; [|reflexivity|reflexivity].
  destruct self as [[c o] [u r] p]. unfold current, original in *.
  simpl in *. now subst.
Qed.

Lemma undo_Loaded (self : ImageEditorApp.t) :
  Loaded self -> Loaded (after undo self).
Proof.
  intros [cur C]. unfold after, undo. rewrite C.
  destruct (ImageHistory.undo cur (history self)) as [h img].
  now exists img.
Qed.

Lemma undo_depth (self : ImageEditorApp.t) :
  Loaded self ->
  length (ImageHistory.undo_stack (history (after undo self)))
  = pred (length (ImageHistory.undo_stack (history self))).
Proof.
  intros [cur C].
  destruct (ImageHistory.undo_stack (history self)) as [|x l] eqn:U.
  - unfold after. rewrite undo_empty by assumption. simpl. now rewrite U.
  - assert (NE : x :: l <> []) by discriminate.
    destruct (exists_last NE) as (rest & top & E).
    rewrite (undo_step self cur top rest C) by congruence.
    apply (f_equal (@length _)) in E. rewrite length_app in E.
    simpl in *. lia.
Qed.

(** Undo N times, then redo N times, from any session that holds an image
    and has at least N entries to undo. *)
Lemma undo_redo_inverse_loaded (N : nat) :
  forall self : ImageEditorApp.t,
    Loaded self ->
    (N <= length (ImageHistory.undo_stack (history self)))%nat ->
    Nat.iter N (after redo) (Nat.iter N (after undo) self) = self.
Proof.
  induction N as [|N IH]; intros self L D.
  - reflexivity.
  - rewrite (Nat.iter_succ_r N _ (after undo)), Nat.iter_succ.
    rewrite IH.
    + apply redo_undo; [assumption|].
      intro E. rewrite E in D. simpl in D. lia.
    + now apply undo_Loaded.
    + rewrite undo_depth by assumption. lia.
Qed.

Lemma apply_Loaded (op : operation) (self : ImageEditorApp.t) :
  Loaded self -> Loaded (after (process_with_loading op) self).
Proof.
  intros [cur C]. unfold after, process_with_loading. rewrite C.
  destruct (op (processor self)) as [e|new_img]; simpl.
  - now exists cur.
  - now exists new_img.
Qed.

Lemma reached_Loaded (imread : string -> option image)
      (self : ImageEditorApp.t) :
  reached_by_applies imread self -> Loaded self.
Proof.
  induction 1 as [path self img NE R | op self new_img _ IH _].
  - exists img. unfold after, open_image, ImageProcessor.load.
    rewrite NE. simpl. rewrite R. reflexivity.
  - now apply apply_Loaded.
Qed.

(** A successful edit, spelled out. *)
Lemma apply_success (op : operation) (self : ImageEditorApp.t)
      (cur new_img : image) :
  current self = Some cur ->
  op (processor self) = Ok new_img ->
  process_with_loading op self =
  (mk (ImageProcessor.mk (Some new_img) (original self))
      (ImageHistory.mk (ImageHistory.undo_stack (history self) ++ [cur]) [])
      (current_path self),
   Done).
Proof.
  intros C O. unfold process_with_loading. rewrite C, O. reflexivity.
Qed.

(** C3. A successful edit pushes the image it replaces, as it was before
    the edit, on the undo stack, empties the redo stack and installs the
    result of the transform; a redo right after it changes nothing, in
    particular when the edit follows an undo. *)
Theorem apply_saves_state_before_mutating :
  forall (op : operation) (self : ImageEditorApp.t) (cur : image),
    current self = Some cur ->
    (forall new_img : image,
        op (processor self) = Ok new_img ->
        let self' := after (process_with_loading op) self in
        snd (process_with_loading op self) = Done
        /\ pop (ImageHistory.undo_stack (history self'))
           = Some (ImageHistory.undo_stack (history self), cur)
        /\ ImageHistory.redo_stack (history self') = []
        /\ current self' = Some new_img
        /\ redo self' = (self', Done))
    /\ (forall new_img : image,
           op (processor (after undo self)) = Ok new_img ->
           let self' := after (process_with_loading op) (after undo self) in
           current self' = Some new_img
           /\ redo self' = (self', Done)).
Proof.
  intros op self cur C. split.
  - intros new_img O self'. subst self'. unfold after.
    rewrite (apply_success op self cur new_img C O). simpl.
    split; [reflexivity|]. split; [apply pop_app|].
    split; [reflexivity|]. split; [reflexivity|].
    now apply redo_empty.
  - intros new_img O self'.
    destruct (undo_Loaded self (ex_intro _ cur C)) as [cur' C'].
    assert (E : self' = fst (process_with_loading op (after undo self)))
      by reflexivity.
    rewrite (apply_success op _ cur' new_img C' O) in E.
    rewrite E. simpl.
    split; [reflexivity|]. now apply redo_empty.
Qed.

(** C5. From a session reached by successful edits, N undos followed by N
    redos give back the very same session: the current image and both
    stacks. *)
Theorem undo_redo_inverse :
  forall (imread : string -> option image) (self : ImageEditorApp.t) (N : nat),
    reached_by_applies imread self ->
    (N <= length (ImageHistory.undo_stack (history self)))%nat ->
    let self' := Nat.iter N (after redo) (Nat.iter N (after undo) self) in
    current self' = current self
    /\ ImageHistory.undo_stack (history self')
       = ImageHistory.undo_stack (history self)
    /\ ImageHistory.redo_stack (history self')
       = ImageHistory.redo_stack (history self)
    /\ self' = self.
Proof.
  intros imread self N R D self'.
  assert (E : self' = self).
  { apply undo_redo_inverse_loaded; [|assumption].
    now apply reached_Loaded with imread. }
  rewrite E. repeat split.
Qed.

(** C8. With nothing to undo, [undo] hands back the image it was given and
    leaves the history alone, and the callback returns normally with the
    session untouched; likewise [redo] with nothing to redo. *)
Theorem empty_stack_noop :
  forall (self : ImageEditorApp.t) (cur : image),
    (ImageHistory.undo_stack (history self) = [] ->
     ImageHistory.undo cur (history self) = (history self, cur)
     /\ undo self = (self, Done))
    /\ (ImageHistory.redo_stack (history self) = [] ->
        ImageHistory.redo cur (history self) = (history self, cur)
        /\ redo self = (self, Done)).
Proof.
  intros self cur. split; intros E; split.
  - unfold ImageHistory.undo. now rewrite E.
  - now apply undo_empty.
  - unfold ImageHistory.redo. now rewrite E.
  - now apply redo_empty.
Qed.

Lemma apply_saves_state_before_mutating_witness :
  let self := session photo [dot] [] in
  let self' := after (process_with_loading ImageProcessor.grayscale) self in
  current self = Some photo
  /\ pop (ImageHistory.undo_stack (history self')) = Some ([dot], photo)
  /\ ImageHistory.redo_stack (history self') = []
  /\ redo self' = (self', Done).
Proof.
  intros self self'.
  destruct (apply_saves_state_before_mutating
              ImageProcessor.grayscale self photo eq_refl) as [H _].
  destruct (H _ eq_refl) as (_ & Hpop & Hredo & _ & Hnoop).
  split; [reflexivity|]. split; [exact Hpop|].
  split; [exact Hredo|exact Hnoop].
Defined.

Lemma undo_redo_inverse_witness :
  let self :=
    after (process_with_loading (ImageProcessor.flip 1))
          (after (process_with_loading ImageProcessor.grayscale)
                 (after (open_image disk "photo.png") init)) in
  reached_by_applies disk self
  /\ (2 <= length (ImageHistory.undo_stack (history self)))%nat
  /\ Nat.iter 2 (after redo) (Nat.iter 2 (after undo) self) = self.
Proof.
  intros self.
  assert (R : reached_by_applies disk self).
  { unfold self.
    eapply reached_apply; [|reflexivity].
    eapply reached_apply; [|reflexivity].
    apply reached_load with (img := photo); reflexivity. }
  assert (D : (2 <= length (ImageHistory.undo_stack (history self)))%nat).
  { vm_compute. lia. }
  split; [exact R|]. split; [exact D|].
  exact (proj2 (proj2 (proj2 (undo_redo_inverse disk self 2 R D)))).
Defined.

Lemma empty_stack_noop_witness :
  let self := session photo [] [] in
  ImageHistory.undo_stack (history self) = []
  /\ ImageHistory.redo_stack (history self) = []
  /\ undo self = (self, Done)
  /\ redo self = (self, Done).
Proof.
  intros self.
  destruct (empty_stack_noop self photo) as [U R].
  split; [reflexivity|]. split; [reflexivity|].
  split; [exact (proj2 (U eq_refl))|exact (proj2 (R eq_refl))].
Defined.

(** ** The original image *)

Lemma apply_original (op : operation) (self : ImageEditorApp.t) :
  original (after (process_with_loading op) self) = original self.
Proof.
  unfold after, process_with_loading.
  destruct (current self) as [cur|]; [|reflexivity].
  destruct (op (processor self)); reflexivity.
Qed.

Lemma undo_original (self : ImageEditorApp.t) :
  original (after undo self) = original self.
Proof.
  unfold after, undo.
  destruct (current self) as [cur|]; [|reflexivity].
  destruct (ImageHistory.undo cur (history self)); reflexivity.
Qed.

Lemma redo_original (self : ImageEditorApp.t) :
  original (after redo self) = original self.
Proof.
  unfold after, redo.
  destruct (current self) as [cur|]; [|reflexivity].
  destruct (ImageHistory.redo cur (history self)); reflexivity.
Qed.

(** What a load that the decoder refuses leaves behind. *)
Lemma open_image_failure (imread : string -> option image) (path : string)
      (self : ImageEditorApp.t) :
  String.eqb path "" = false ->
  imread path = None ->
  open_image imread path self =
  (mk (ImageProcessor.mk None (original self))
      (history self) (current_path self),
   ShowError "Open failed"
             "Failed to load image. Please choose a valid image file.").
Proof.
  intros NE R. unfold open_image, ImageProcessor.load.
  rewrite NE. simpl. rewrite R. reflexivity.
Qed.

Lemma open_image_success (imread : string -> option image) (path : string)
      (self : ImageEditorApp.t) (img : image) :
  String.eqb path "" = false ->
  imread path = Some img ->
  open_image imread path self =
  (mk (ImageProcessor.mk (Some img) (Some img))
      (ImageHistory.mk [] []) (Some path),
   Done).
Proof.
  intros NE R. unfold open_image, ImageProcessor.load.
  rewrite NE. simpl. rewrite R. reflexivity.
Qed.

(** C9. Edits, undo and redo never touch the original image, nor does a
    load that fails or is dismissed; a successful load installs the decoded
    image as the original.  A successful edit makes its result the current
    image, an undo the top of the undo stack, a redo the top of the redo
    stack. *)
Theorem original_replaced_only_by_load :
  forall (imread : string -> option image) (INTER_AREA : cv2.resampler)
         (self : ImageEditorApp.t),
    (forall op : operation,
        original (after (process_with_loading op) self) = original self)
    /\ (forall percent : option Z,
           original (after (resize_popup INTER_AREA percent) self)
           = original self)
    /\ original (after undo self) = original self
    /\ original (after redo self) = original self
    /\ (forall path : string,
           imread path = None ->
           original (after (open_image imread path) self) = original self)
    /\ (forall (path : string) (img : image),
           String.eqb path "" = false ->
           imread path = Some img ->
           original (after (open_image imread path) self) = Some img)
    /\ (forall (op : operation) (cur new_img : image),
           current self = Some cur ->
           op (processor self) = Ok new_img ->
           current (after (process_with_loading op) self) = Some new_img)
    /\ (forall (cur top : image) (rest : list image),
           current self = Some cur ->
           pop (ImageHistory.undo_stack (history self)) = Some (rest, top) ->
           current (after undo self) = Some top)
    /\ (forall (cur top : image) (rest : list image),
           current self = Some cur ->
           pop (ImageHistory.redo_stack (history self)) = Some (rest, top) ->
           current (after redo self) = Some top).
Proof.
  intros imread INTER_AREA self.
  split; [intros op; apply apply_original|].
  split.
  { intros percent. unfold after, resize_popup.
    destruct (current self) as [cur|] eqn:C; [|reflexivity].
    destruct percent as [p|]; [|reflexivity].
    destruct (p =? 0); [reflexivity|].
    apply (apply_original (ImageProcessor.resize INTER_AREA p)). }
  split; [apply undo_original|].
  split; [apply redo_original|].
  split.
  { intros path R. unfold after.
    destruct (String.eqb path "") eqn:NE.
    - unfold open_image. now rewrite NE.
    - now rewrite open_image_failure. }
  split.
  { intros path img NE R. unfold after.
    now rewrite (open_image_success imread path self img). }
  split.
  { intros op cur new_img C O. unfold after.
    now rewrite (apply_success op self cur new_img). }
  split.
  - intros cur top rest C P. apply pop_Some in P.
    now rewrite (undo_step self cur top rest).
  - intros cur top rest C P. apply pop_Some in P.
    now rewrite (redo_step self cur top rest).
Qed.

Lemma original_replaced_only_by_load_witness :
  let self := session dot [photo] [photo] in
  original (after (process_with_loading ImageProcessor.grayscale) self)
  = Some photo
  /\ current (after (process_with_loading ImageProcessor.grayscale) self)
     = Some [[BGR 76 76 76]]
  /\ original (after (open_image disk "notes.txt") self) = Some photo
  /\ original (after (open_image disk "photo.png") init) = Some photo
  /\ current (after undo self) = Some photo
  /\ current (after redo self) = Some photo.
Proof.
  intros self.
  destruct (original_replaced_only_by_load disk nearest self)
    as (Ha & _ & _ & _ & Hf & _ & Hc & Hu & Hr).
  destruct (original_replaced_only_by_load disk nearest init)
    as (_ & _ & _ & _ & _ & Hl & _).
  split; [exact (Ha ImageProcessor.grayscale)|].
  split; [exact (Hc ImageProcessor.grayscale dot _ eq_refl eq_refl)|].
  split; [exact (Hf "notes.txt"%string eq_refl)|].
  split; [exact (Hl "photo.png"%string photo eq_refl eq_refl)|].
  split; [exact (Hu dot photo [] eq_refl eq_refl)|].
  exact (Hr dot photo [] eq_refl eq_refl).
Defined.

(** C1. When the decoder refuses the file, [load] raises [ValueError] to
    its caller, and the original image, the history and the save path stay
    as they were; but the current image, already overwritten with the
    decoder's [None], is lost. *)
Theorem failed_load_drops_current_image :
  forall (imread : string -> option image) (path : string)
         (self : ImageEditorApp.t) (cur : image),
    String.eqb path "" = false ->
    imread path = None ->
    current self = Some cur ->
    let self' := after (open_image imread path) self in
    snd (ImageProcessor.load imread path (processor self))
    = Raise (ValueError
               "Failed to load image. Please choose a valid image file.")
    /\ current self' = None
    /\ current self' <> current self
    /\ original self' = original self
    /\ history self' = history self
    /\ current_path self' = current_path self.
Proof.
  intros imread path self cur NE R C self'. subst self'. unfold after.
  rewrite (open_image_failure imread path self NE R). simpl.
  split.
  { unfold ImageProcessor.load. simpl. now rewrite R. }
  split; [reflexivity|].
  split; [rewrite C; discriminate|].
  repeat split.
Qed.

Lemma failed_load_drops_current_image_witness :
  let self := session photo [dot] [] in
  let self' := after (open_image disk "notes.txt") self in
  current self = Some photo
  /\ current self' = None
  /\ history self' = history self.
Proof.
  intros self self'.
  destruct (failed_load_drops_current_image
              disk "notes.txt"%string self photo eq_refl eq_refl eq_refl)
    as (_ & Hc & _ & _ & Hh & _).
  split; [reflexivity|]. split; [exact Hc|exact Hh].
Defined.

(** ** Per-pixel transforms *)

Lemma map_pixels_compose {A B C : Type} (f : A -> B) (g : B -> C)
      (img : list (list A)) :
  map_pixels g (map_pixels f img) = map_pixels (fun a => g (f a)) img.
Proof.
  unfold map_pixels. rewrite map_map.
  apply map_ext. intros row. apply map_map.
Qed.

Lemma map_pixels_ext {A B : Type} (f g : A -> B) (img : list (list A)) :
  (forall a, f a = g a) -> map_pixels f img = map_pixels g img.
Proof.
  intros E. unfold map_pixels.
  apply map_ext. intros row. now apply map_ext.
Qed.

Lemma map_pixels_shape {A B : Type} (f : A -> B) (img : list (list A)) :
  shape (map_pixels f img) = shape img.
Proof.
  unfold shape, map_pixels. rewrite length_map.
  destruct img as [|row img]; simpl; [reflexivity|].
  now rewrite length_map.
Qed.

(** The luminance of a gray pixel is its sample: the three weights add up
    to [2^15]. *)
Lemma luminance_gray (y : Z) : cv2.luminance (BGR y y y) = y.
Proof.
  unfold cv2.luminance, cv2.gray_shift, cv2.BY15, cv2.GY15, cv2.RY15.
  cbn [blue green red].
  rewrite Z.shiftr_div_pow2 by lia.
  change (Z.shiftl 1 (15 - 1)) with 16384.
  change (2 ^ 15) with 32768.
  symmetry. apply Z.div_unique with (r := 16384); lia.
Qed.

Lemma to_gray_idempotent (img : image) : to_gray (to_gray img) = to_gray img.
Proof.
  unfold to_gray, cv2.cvtColor_GRAY2BGR, cv2.cvtColor_BGR2GRAY.
  rewrite !map_pixels_compose.
  apply map_pixels_ext. intros p.
  now rewrite luminance_gray.
Qed.

(** C7. Grayscale applied to its own output returns that output: on the
    arrays, and through two clicks on the button. *)
Theorem grayscale_idempotent :
  forall (img : image) (original1 original2 : option image)
         (self : ImageEditorApp.t),
    ImageProcessor.grayscale (ImageProcessor.mk (Some img) original1)
    = Ok (to_gray img)
    /\ ImageProcessor.grayscale
         (ImageProcessor.mk (Some (to_gray img)) original2)
       = Ok (to_gray img)
    /\ current (after (process_with_loading ImageProcessor.grayscale)
                  (after (process_with_loading ImageProcessor.grayscale) self))
       = current (after (process_with_loading ImageProcessor.grayscale) self).
Proof.
  intros img original1 original2 self.
  split; [reflexivity|].
  split.
  - unfold ImageProcessor.grayscale, ImageProcessor.on_current.
    cbn [ImageProcessor.current_cv_image].
    fold (to_gray (to_gray img)). now rewrite to_gray_idempotent.
  - destruct self as [[[cur|] o] h p]; [|reflexivity].
    unfold after, process_with_loading, current, ImageProcessor.grayscale,
      ImageProcessor.on_current.
    cbn. fold (to_gray cur). fold (to_gray (to_gray cur)).
    now rewrite to_gray_idempotent.
Qed.

(** With contrast 1.0 the scaled value is an integer and rounding leaves it
    alone: the sample becomes the magnitude of [v + brightness], saturated
    at 255. *)
Lemma convertScaleAbs_unit_contrast (beta v : Z) :
  cv2.convertScaleAbs_sample 1 beta v = Z.min 255 (Z.abs (v + beta)).
Proof.
  unfold cv2.convertScaleAbs_sample, cv2.cvRound, Qabs, Qplus, Qmult, inject_Z.
  cbn [Qnum Qden Pos.mul].
  rewrite Z.mul_1_l, !Z.mul_1_r, Z.div_1_r, Z.mod_1_r.
  cbn [Z.mul Z.ltb Z.compare].
  unfold cv2.saturate_cast_uchar. lia.
Qed.

(** Brightening by 50 at contrast 1.0 adds 50 to every sample and saturates
    at 255. *)
Lemma brighten_by_50 (v : Z) :
  0 <= v <= 255 ->
  cv2.convertScaleAbs_sample 1 50 v = Z.min 255 (v + 50).
Proof.
  intros H. rewrite convertScaleAbs_unit_contrast. lia.
Qed.

(** C2. At contrast 1.0 and for every brightness of the slider, -100 to
    100, every sample [v] becomes [min 255 |v + brightness|]: a sum below
    zero is not clamped to 0 but replaced by its magnitude.  A pixel of
    samples 10 darkened by 50 comes out at 40, and a black pixel darkened
    by 100 at 100. *)
Theorem darkening_takes_absolute_value :
  (forall (img : image) (original : option image) (brightness : Z),
      -100 <= brightness <= 100 ->
      ImageProcessor.brightness_contrast
        brightness 1 (ImageProcessor.mk (Some img) original)
      = Ok (map_pixels
              (map_samples (fun v => Z.min 255 (Z.abs (v + brightness))))
              img))
  /\ ImageProcessor.brightness_contrast
       (-50) 1 (ImageProcessor.mk (Some [[BGR 10 10 10]]) None)
     = Ok [[BGR 40 40 40]]
  /\ ImageProcessor.brightness_contrast
       (-100) 1 (ImageProcessor.mk (Some [[BGR 0 0 0]]) None)
     = Ok [[BGR 100 100 100]].
Proof.
  split; [|split; reflexivity].
  intros img original brightness _.
  unfold ImageProcessor.brightness_contrast, ImageProcessor.on_current,
    cv2.convertScaleAbs.
  cbn [ImageProcessor.current_cv_image]. f_equal.
  apply map_pixels_ext. intros [b g r]. unfold map_samples.
  cbn [blue green red].
  now rewrite !convertScaleAbs_unit_contrast.
Qed.

Lemma darkening_takes_absolute_value_witness :
  ImageProcessor.brightness_contrast
    (-50) 1 (ImageProcessor.mk (Some dot) None)
  = Ok [[BGR 50 50 205]].
Proof.
  exact (proj1 darkening_takes_absolute_value dot None (-50) ltac:(lia)).
Defined.

(** ** Rotation *)

Section Transpose.
Context {A : Type}.
Implicit Types (row : list A) (m cols : list (list A)).

Lemma well_formed_rect m :
  well_formed m = true ->
  rect (height m) (width m) m /\ (0 < height m)%nat /\ (0 < width m)%nat.
Proof.
  unfold well_formed. rewrite !andb_true_iff, !Nat.ltb_lt, forallb_forall.
  intros [[H W] F]. repeat split; try assumption.
  apply Forall_forall. intros row I. now apply Nat.eqb_eq, F.
Qed.

Lemma rect_well_formed h w m :
  rect h w m -> (0 < h)%nat -> (0 < w)%nat ->
  well_formed m = true /\ shape m = (h, w).
Proof.
  intros [L F] H W.
  assert (S : shape m = (h, w)).
  { unfold shape. rewrite L. f_equal.
    destruct m as [|row m]; simpl in *; [lia|].
    now inversion F. }
  split; [|exact S].
  unfold well_formed, height, width. rewrite S. simpl.
  rewrite !andb_true_iff, !Nat.ltb_lt, forallb_forall.
  repeat split; try assumption.
  intros row I. apply Nat.eqb_eq.
  rewrite Forall_forall in F. now apply F.
Qed.

Lemma zip_cons_length row cols :
  length row = length cols -> length (cv2.zip_cons row cols) = length row.
Proof.
  revert cols. induction row as [|x row IH]; intros [|c cols] E;
    simpl in *; try discriminate; [reflexivity|].
  f_equal. apply IH. lia.
Qed.

Lemma zip_cons_rows (h : nat) row cols :
  Forall (fun c => length c = h) cols ->
  Forall (fun c => length c = S h) (cv2.zip_cons row cols).
Proof.
  revert cols. induction row as [|x row IH]; intros [|c cols] F;
    simpl; try constructor.
  - inversion F; subst. reflexivity.
  - apply IH. now inversion F.
Qed.

Lemma zip_cons_app row1 row2 cols1 cols2 :
  length row1 = length cols1 ->
  cv2.zip_cons (row1 ++ row2) (cols1 ++ cols2)
  = cv2.zip_cons row1 cols1 ++ cv2.zip_cons row2 cols2.
Proof.
  revert cols1. induction row1 as [|x row1 IH]; intros [|c cols1] E;
    simpl in *; try discriminate; [reflexivity|].
  f_equal. apply IH. lia.
Qed.

Lemma zip_cons_rev row cols :
  length row = length cols ->
  cv2.zip_cons (rev row) (rev cols) = rev (cv2.zip_cons row cols).
Proof.
  revert cols. induction row as [|x row IH]; intros [|c cols] E;
    simpl in *; try discriminate; [reflexivity|].
  rewrite zip_cons_app by (rewrite !length_rev; lia).
  rewrite IH by lia. reflexivity.
Qed.

Lemma transpose_w_length (w : nat) m :
  Forall (fun row => length row = w) m ->
  length (cv2.transpose_w w m) = w.
Proof.
  unfold cv2.transpose_w.
  induction 1 as [|row m L _ IH]; simpl.
  - apply repeat_length.
  - rewrite zip_cons_length; congruence.
Qed.

Lemma transpose_w_rows (w : nat) m :
  Forall (fun c => length c = length m) (cv2.transpose_w w m).
Proof.
  unfold cv2.transpose_w.
  induction m as [|row m IH]; simpl.
  - apply Forall_forall. intros c I. now apply repeat_spec in I; subst.
  - now apply zip_cons_rows.
Qed.

Lemma transpose_w_rect (h w : nat) m :
  rect h w m -> rect w h (cv2.transpose_w w m).
Proof.
  intros [L F]. split.
  - now apply transpose_w_length.
  - rewrite <- L. apply transpose_w_rows.
Qed.

Lemma transpose_w_zip_cons (h : nat) row cols :
  length row = length cols ->
  cv2.transpose_w (S h) (cv2.zip_cons row cols)
  = row :: cv2.transpose_w h cols.
Proof.
  unfold cv2.transpose_w.
  revert cols. induction row as [|x row IH]; intros [|c cols] E;
    simpl in *; try discriminate; [reflexivity|].
  rewrite IH by lia. reflexivity.
Qed.

Lemma transpose_w_involutive (h w : nat) m :
  rect h w m -> cv2.transpose_w h (cv2.transpose_w w m) = m.
Proof.
  intros [L F]. revert h L.
  induction F as [|row m R F IH]; intros h L; simpl in L; subst h.
  - destruct w; reflexivity.
  - change (cv2.transpose_w w (row :: m))
      with (cv2.zip_cons row (cv2.transpose_w w m)).
    rewrite transpose_w_zip_cons.
    + f_equal. now apply IH.
    + rewrite transpose_w_length; assumption.
Qed.

Lemma rev_repeat_nil (w : nat) : rev (repeat (@nil A) w) = repeat [] w.
Proof.
  induction w as [|w IH]; [reflexivity|].
  simpl. rewrite IH. clear IH.
  induction w as [|w IH]; [reflexivity|]. simpl. now rewrite IH.
Qed.

Lemma transpose_w_map_rev (w : nat) m :
  Forall (fun row => length row = w) m ->
  cv2.transpose_w w (map (@rev A) m) = rev (cv2.transpose_w w m).
Proof.
  unfold cv2.transpose_w.
  induction 1 as [|row m R F IH]; simpl.
  - symmetry. apply rev_repeat_nil.
  - rewrite IH. apply zip_cons_rev.
    rewrite R. symmetry. now apply transpose_w_length.
Qed.

Lemma rect_rev (h w : nat) m : rect h w m -> rect h w (rev m).
Proof.
  intros [L F]. split.
  - now rewrite length_rev.
  - now apply Forall_rev.
Qed.

Lemma rect_map_rev (h w : nat) m : rect h w m -> rect h w (map (@rev A) m).
Proof.
  intros [L F]. split.
  - now rewrite length_map.
  - apply Forall_map. revert F. apply Forall_impl.
    intros row. now rewrite length_rev.
Qed.

Lemma rect_width (h w : nat) m : rect h w m -> (0 < h)%nat -> width m = w.
Proof.
  intros [L F] H. destruct m as [|row m]; simpl in *; [lia|].
  now inversion F.
Qed.

Lemma rot90_rect (h w : nat) m :
  rect h w m -> (0 < h)%nat -> rect w h (rot90 m).
Proof.
  intros R H. unfold rot90, cv2.flip, cv2.transpose. simpl.
  rewrite (rect_width h w m R H).
  now apply rect_map_rev, transpose_w_rect.
Qed.

Lemma rot90_rot90 (h w : nat) m :
  rect h w m -> (0 < h)%nat -> (0 < w)%nat ->
  rot90 (rot90 m) = cv2.flip m (-1).
Proof.
  intros R H W.
  assert (R1 := rot90_rect h w m R H).
  unfold rot90 at 1. unfold cv2.transpose.
  rewrite (rect_width w h _ R1 W).
  unfold rot90, cv2.flip, cv2.transpose. simpl.
  rewrite (rect_width h w m R H).
  destruct (transpose_w_rect h w m R) as [_ F].
  rewrite transpose_w_map_rev by assumption.
  rewrite transpose_w_involutive by assumption.
  apply map_rev.
Qed.

Lemma flip_both_involutive m : cv2.flip (cv2.flip m (-1)) (-1) = m.
Proof.
  unfold cv2.flip. simpl.
  rewrite <- map_rev, rev_involutive, map_map.
  rewrite <- (map_id m) at 2. apply map_ext. apply rev_involutive.
Qed.

Lemma rot90_four_times m :
  well_formed m = true -> rot90 (rot90 (rot90 (rot90 m))) = m.
Proof.
  intros WF. destruct (well_formed_rect m WF) as (R & H & W).
  set (h := height m) in *. set (w := width m) in *.
  assert (R2 : rect h w (rot90 (rot90 m))).
  { apply rot90_rect; [|assumption]. now apply rot90_rect. }
  rewrite (rot90_rot90 h w _ R2 H W).
  rewrite (rot90_rot90 h w m R H W).
  apply flip_both_involutive.
Qed.
End Transpose.

Lemma bind_Ok {A B : Type} (a : A) (f : A -> result B) : bind (Ok a) f = f a.
Proof. reflexivity. Qed.

Lemma rotate_90_clockwise {A : Type} (m : list (list A)) :
  cv2.rotate m cv2.ROTATE_90_CLOCKWISE = Ok (rot90 m).
Proof. reflexivity. Qed.

Lemma apply_rotate_90 (self : ImageEditorApp.t) (img : image) :
  current self = Some img ->
  current (after (process_with_loading
                    (ImageProcessor.rotate cv2.ROTATE_90_CLOCKWISE)) self)
  = Some (rot90 img).
Proof.
  intros C. unfold after.
  rewrite (apply_success _ self img (rot90 img) C); [reflexivity|].
  unfold ImageProcessor.rotate, ImageProcessor.on_current.
  unfold current in C. now rewrite C.
Qed.

(** C6. On a current image with positive dimensions, four clockwise
    quarter turns of [ImageProcessor.rotate] give back the image itself,
    called in a row and through four clicks on the button; one quarter turn
    either way returns an image with height and width swapped and a half
    turn one with the same height and width, from the method and in the
    session after the click. *)
Theorem rotate_round_trip :
  forall (img : image) (original : option image),
    well_formed img = true ->
    let turn :=
      fun (code : cv2.RotateFlags) (a : image) =>
        ImageProcessor.rotate code (ImageProcessor.mk (Some a) original) in
    let quarter := turn cv2.ROTATE_90_CLOCKWISE in
    bind (bind (bind (quarter img) quarter) quarter) quarter = Ok img
    /\ (forall self : ImageEditorApp.t,
           current self = Some img ->
           current (Nat.iter 4
                      (after (process_with_loading
                                (ImageProcessor.rotate
                                   cv2.ROTATE_90_CLOCKWISE))) self)
           = Some img)
    /\ (exists r : image,
           turn cv2.ROTATE_90_CLOCKWISE img = Ok r
           /\ shape r = (width img, height img))
    /\ (exists r : image,
           turn cv2.ROTATE_90_COUNTERCLOCKWISE img = Ok r
           /\ shape r = (width img, height img))
    /\ (exists r : image,
           turn cv2.ROTATE_180 img = Ok r
           /\ shape r = (height img, width img))
    /\ (forall (code : cv2.RotateFlags) (self : ImageEditorApp.t),
           current self = Some img ->
           exists r : image,
             current (after (process_with_loading
                               (ImageProcessor.rotate code)) self)
             = Some r
             /\ shape r = match code with
                          | cv2.ROTATE_180 => (height img, width img)
                          | _ => (width img, height img)
                          end).
Proof.
  intros img original WF turn quarter.
  destruct (well_formed_rect img WF) as (R & H & W).
  assert (T : forall code a, turn code a = cv2.rotate a code)
    by reflexivity.
  assert (S90 : shape (rot90 img) = (width img, height img)).
  { now apply (rect_well_formed _ _ _ (rot90_rect _ _ img R H)). }
  assert (S270 : shape (cv2.flip (cv2.transpose img) 0)
                 = (width img, height img)).
  { apply rect_well_formed; try assumption.
    unfold cv2.flip, cv2.transpose. simpl.
    now apply rect_rev, transpose_w_rect. }
  assert (S180 : shape (cv2.flip img (-1)) = (height img, width img)).
  { apply rect_well_formed; try assumption.
    unfold cv2.flip. simpl. now apply rect_rev, rect_map_rev. }
  split.
  { unfold quarter. rewrite !T.
    rewrite (rotate_90_clockwise img), bind_Ok, T.
    rewrite (rotate_90_clockwise (rot90 img)), bind_Ok, T.
    rewrite (rotate_90_clockwise (rot90 (rot90 img))), bind_Ok, T.
    rewrite rotate_90_clockwise.
    now rewrite rot90_four_times. }
  split.
  { intros self C. simpl.
    rewrite (apply_rotate_90 _ (rot90 (rot90 (rot90 img)))).
    - now rewrite rot90_four_times.
    - now do 3 apply apply_rotate_90. }
  split; [exists (rot90 img); split; [reflexivity|exact S90]|].
  split; [exists (cv2.flip (cv2.transpose img) 0);
          split; [reflexivity|exact S270]|].
  split; [exists (cv2.flip img (-1)); split; [reflexivity|exact S180]|].
  intros code self C.
  assert (E : forall r,
             cv2.rotate img code = Ok r ->
             current (after (process_with_loading
                               (ImageProcessor.rotate code)) self)
             = Some r).
  { intros r O. unfold after.
    rewrite (apply_success _ self img r C); [reflexivity|].
    unfold ImageProcessor.rotate, ImageProcessor.on_current.
    unfold current in C. now rewrite C. }
  destruct code.
  - exists (rot90 img). split; [now apply E|exact S90].
  - exists (cv2.flip img (-1)). split; [now apply E|exact S180].
  - exists (cv2.flip (cv2.transpose img) 0).
    split; [now apply E|exact S270].
Qed.

Lemma rotate_round_trip_witness :
  well_formed photo = true
  /\ (exists r : image,
         ImageProcessor.rotate cv2.ROTATE_90_CLOCKWISE
           (ImageProcessor.mk (Some photo) None) = Ok r
         /\ shape r = (3, 2)%nat)
  /\ current (Nat.iter 4
                (after (process_with_loading
                          (ImageProcessor.rotate cv2.ROTATE_90_CLOCKWISE)))
                (session photo [] []))
     = Some photo.
Proof.
  destruct (rotate_round_trip photo None eq_refl)
    as (_ & Four & Quarter & _).
  split; [reflexivity|]. split; [exact Quarter|].
  exact (Four (session photo [] []) eq_refl).
Defined.

(** ** Resize *)

Section Resize.

Variable INTER_AREA : cv2.resampler.

Lemma cv2_resize_source (src : image) :
  well_formed src = true ->
  ((height src =? 0)%nat || (width src =? 0)%nat)%bool = false.
Proof.
  intros WF. destruct (well_formed_rect src WF) as (_ & H & W).
  apply orb_false_iff. split; apply Nat.eqb_neq; lia.
Qed.

Lemma cv2_resize_ok (src : image) (dw dh : Z) :
  well_formed src = true -> 0 < dw -> 0 < dh ->
  exists out : image,
    cv2.resize INTER_AREA src (dw, dh) = Ok out
    /\ shape out = (Z.to_nat dh, Z.to_nat dw).
Proof.
  intros WF W H. unfold cv2.resize.
  rewrite (cv2_resize_source src WF).
  replace ((dw <=? 0) || (dh <=? 0))%bool with false
    by (symmetry; apply orb_false_iff; split; apply Z.leb_gt; lia).
  eexists. split; [reflexivity|].
  unfold shape. rewrite length_map, length_seq. f_equal.
  destruct (Z.to_nat dh) as [|n] eqn:E; [lia|].
  simpl. now rewrite length_map, length_seq.
Qed.

Lemma cv2_resize_rejects (src : image) (dw dh : Z) :
  well_formed src = true -> dw <= 0 \/ dh <= 0 ->
  cv2.resize INTER_AREA src (dw, dh) = Raise (cv2_error "inv_scale_x > 0").
Proof.
  intros WF D. unfold cv2.resize.
  rewrite (cv2_resize_source src WF).
  replace ((dw <=? 0) || (dh <=? 0))%bool with true; [reflexivity|].
  symmetry. apply orb_true_iff.
  destruct D; [left|right]; apply Z.leb_le; lia.
Qed.

(** [resize] reads the original only. *)
Lemma resize_of_original (p : Z) (self : ImageProcessor.t) (orig : image) :
  ImageProcessor.original_reference self = Some orig ->
  ImageProcessor.resize INTER_AREA p self
  = cv2.resize INTER_AREA orig
      (int_truediv (Z.of_nat (width orig) * p) 100,
       int_truediv (Z.of_nat (height orig) * p) 100).
Proof.
  intros O. unfold ImageProcessor.resize. rewrite O. reflexivity.
Qed.

Lemma resize_popup_nonzero (p : Z) (self : ImageEditorApp.t) :
  p <> 0 ->
  resize_popup INTER_AREA (Some p) self
  = process_with_loading (ImageProcessor.resize INTER_AREA p) self.
Proof.
  intros NZ. unfold resize_popup, process_with_loading.
  destruct (current self) as [cur|]; [|reflexivity].
  apply Z.eqb_neq in NZ. now rewrite NZ.
Qed.

(** The outcome of the resize dialog for a non-zero percentage, whatever
    its value: the resampler's answer decides. *)
Lemma resize_popup_outcome (p : Z) (self : ImageEditorApp.t)
      (cur orig : image) :
  current self = Some cur ->
  original self = Some orig ->
  well_formed orig = true ->
  p <> 0 ->
  let dw := int_truediv (Z.of_nat (width orig) * p) 100 in
  let dh := int_truediv (Z.of_nat (height orig) * p) 100 in
  (0 < dw -> 0 < dh ->
   exists out : image,
     cv2.resize INTER_AREA orig (dw, dh) = Ok out
     /\ shape out = (Z.to_nat dh, Z.to_nat dw)
     /\ resize_popup INTER_AREA (Some p) self
        = (mk (ImageProcessor.mk (Some out) (Some orig))
              (ImageHistory.mk
                 (ImageHistory.undo_stack (history self) ++ [cur]) [])
              (current_path self),
           Done))
  /\ (dw <= 0 \/ dh <= 0 ->
      resize_popup INTER_AREA (Some p) self
      = (self, Raised (cv2_error "inv_scale_x > 0"))).
Proof.
  intros C O WF NZ dw dh. split.
  - intros W H.
    destruct (cv2_resize_ok orig dw dh WF W H) as (out & E & S).
    exists out. split; [exact E|]. split; [exact S|].
    rewrite (resize_popup_nonzero p self NZ).
    rewrite (apply_success _ self cur out C).
    + now rewrite O.
    + rewrite (resize_of_original p _ orig O). exact E.
  - intros D.
    rewrite (resize_popup_nonzero p self NZ).
    unfold process_with_loading. rewrite C.
    rewrite (resize_of_original p _ orig O).
    fold dw dh. now rewrite (cv2_resize_rejects orig dw dh WF D).
Qed.

End Resize.

(** A one-pixel original scaled to 50 percent: the requested size is 0 by 0
    and the resampler raises; no 0 by 0 array is produced. *)
Lemma resize_one_pixel_to_half :
  well_formed dot = true
  /\ ImageProcessor.resize nearest 50 (ImageProcessor.mk (Some dot) (Some dot))
     = Raise (cv2_error "inv_scale_x > 0")
  /\ ~ (exists out : image,
           ImageProcessor.resize
             nearest 50 (ImageProcessor.mk (Some dot) (Some dot)) = Ok out
           /\ shape out = (Z.to_nat (1 * 50 / 100), Z.to_nat (1 * 50 / 100))).
Proof.
  split; [reflexivity|]. split; [reflexivity|].
  intros (out & E & _). discriminate E.
Qed.

(** C4 (amended). For a percentage between 50 and 200 that leaves at least
    one pixel in each direction, [resize] returns the resampling of the
    original image, whatever the current image is, with dimensions
    [floor(w*percent/100)] by [floor(h*percent/100)]; resizing a session
    whose original is 200 by 100 to 150 percent and then to 75 percent
    leaves a 150 by 75 image. *)
Theorem resize_from_original :
  forall INTER_AREA : cv2.resampler,
    (forall (self : ImageProcessor.t) (orig : image) (percent : Z),
        ImageProcessor.original_reference self = Some orig ->
        well_formed orig = true ->
        50 <= percent <= 200 ->
        let w := Z.of_nat (width orig) in
        let h := Z.of_nat (height orig) in
        1 <= w * percent / 100 ->
        1 <= h * percent / 100 ->
        exists out : image,
          ImageProcessor.resize INTER_AREA percent self = Ok out
          /\ cv2.resize INTER_AREA orig (w * percent / 100, h * percent / 100)
             = Ok out
          /\ width out = Z.to_nat (w * percent / 100)
          /\ height out = Z.to_nat (h * percent / 100))
    /\ (forall (self : ImageEditorApp.t) (cur orig : image),
           current self = Some cur ->
           original self = Some orig ->
           well_formed orig = true ->
           width orig = 200%nat ->
           height orig = 100%nat ->
           let self1 := after (resize_popup INTER_AREA (Some 150)) self in
           let self2 := after (resize_popup INTER_AREA (Some 75)) self1 in
           exists mid out : image,
             current self1 = Some mid
             /\ shape mid = (150, 300)%nat
             /\ current self2 = Some out
             /\ shape out = (75, 150)%nat).
Proof.
  intros INTER_AREA. split.
  - intros self orig p O WF P w h W H.
    rewrite (resize_of_original INTER_AREA p self orig O).
    unfold int_truediv. fold w h.
    rewrite !Z.quot_div_nonneg by lia.
    destruct (cv2_resize_ok INTER_AREA orig (w * p / 100) (h * p / 100) WF)
      as (out & E & S); [lia|lia|].
    exists out. split; [exact E|]. split; [exact E|].
    unfold width, height. now rewrite S.
  - intros self cur orig C O WF W H self1 self2.
    destruct (resize_popup_outcome INTER_AREA 150 self cur orig C O WF)
      as [Ok1 _]; [lia|].
    rewrite W, H in Ok1.
    destruct Ok1 as (mid & _ & S1 & E1); [reflexivity|reflexivity|].
    assert (D1 : self1 = fst (resize_popup INTER_AREA (Some 150) self))
      by reflexivity.
    rewrite E1 in D1. cbn [fst] in D1.
    destruct (resize_popup_outcome INTER_AREA 75 self1 mid orig)
      as [Ok2 _]; try (rewrite D1; reflexivity); [assumption|lia|].
    rewrite W, H in Ok2.
    destruct Ok2 as (out & _ & S2 & E2); [reflexivity|reflexivity|].
    assert (D2 : self2 = fst (resize_popup INTER_AREA (Some 75) self1))
      by reflexivity.
    rewrite E2 in D2. cbn [fst] in D2.
    exists mid, out.
    rewrite D1 at 1. rewrite D2.
    repeat split; assumption.
Qed.

Lemma resize_from_original_witness :
  let self := mk (ImageProcessor.mk (Some dot) (Some poster))
                 (ImageHistory.mk [] []) None in
  well_formed poster = true
  /\ (exists out : image,
         ImageProcessor.resize nearest 150 (processor self) = Ok out
         /\ width out = 300%nat /\ height out = 150%nat)
  /\ (exists out : image,
         current (after (resize_popup nearest (Some 75))
                        (after (resize_popup nearest (Some 150)) self))
         = Some out
         /\ shape out = (75, 150)%nat).
Proof.
  intros self.
  destruct (resize_from_original nearest) as [A B].
  split; [reflexivity|]. split.
  - destruct (A (processor self) poster 150 eq_refl eq_refl)
      as (out & E & _ & W & H);
      [lia | vm_compute; discriminate | vm_compute; discriminate |].
    exists out. split; [exact E|]. split; [exact W|exact H].
  - destruct (B self dot poster eq_refl eq_refl eq_refl eq_refl eq_refl)
      as (mid & out & _ & _ & E & S).
    exists out. split; [exact E|exact S].
Defined.

(** ** Python's quotient through the double *)







(** * Further properties *)

(** ** The history as a timeline *)

(** X1. [undo] and [redo] only move the current position along the
    timeline of images: the sequence made of the undo stack, the current
    image and the redo stack read from its top is the same before and
    after, on the history object and on the session. *)
Theorem undo_redo_keep_timeline :
  forall (h : ImageHistory.t) (cur : image),
    timeline (snd (ImageHistory.undo cur h)) (fst (ImageHistory.undo cur h))
    = timeline cur h
    /\ timeline (snd (ImageHistory.redo cur h)) (fst (ImageHistory.redo cur h))
       = timeline cur h
    /\ (forall self : ImageEditorApp.t,
           current self = Some cur ->
           history self = h ->
           exists cur1 cur2 : image,
             current (after undo self) = Some cur1
             /\ timeline cur1 (history (after undo self)) = timeline cur h
             /\ current (after redo self) = Some cur2
             /\ timeline cur2 (history (after redo self)) = timeline cur h).
Proof.
  intros h cur.
  assert (U : timeline (snd (ImageHistory.undo cur h))
                       (fst (ImageHistory.undo cur h)) = timeline cur h).
  { unfold ImageHistory.undo, timeline.
    destruct (pop (ImageHistory.undo_stack h)) as [[rest top]|] eqn:P;
      [|reflexivity].
    apply pop_Some in P. rewrite P. cbn.
    rewrite rev_app_distr, <- app_assoc. reflexivity. }
  assert (R : timeline (snd (ImageHistory.redo cur h))
                       (fst (ImageHistory.redo cur h)) = timeline cur h).
  { unfold ImageHistory.redo, timeline.
    destruct (pop (ImageHistory.redo_stack h)) as [[rest top]|] eqn:P;
      [|reflexivity].
    apply pop_Some in P. rewrite P. cbn.
    rewrite rev_app_distr, <- app_assoc. reflexivity. }
  split; [exact U|]. split; [exact R|].
  intros self C H. subst h.
  exists (snd (ImageHistory.undo cur (history self))),
         (snd (ImageHistory.redo cur (history self))).
  unfold after, undo, redo. rewrite C.
  destruct (ImageHistory.undo cur (history self)) as [hu iu].
  destruct (ImageHistory.redo cur (history self)) as [hr ir].
  cbn in *. repeat split; assumption.
Qed.

Lemma undo_redo_keep_timeline_witness :
  let self := session photo [dot; poster] [dot] in
  exists cur1 : image,
    current (after undo self) = Some cur1
    /\ timeline cur1 (history (after undo self)) = [dot; poster; photo; dot].
Proof.
  intros self.
  destruct (undo_redo_keep_timeline (history self) photo)
    as (_ & _ & H).
  destruct (H self eq_refl eq_refl) as (cur1 & _ & C1 & T1 & _).
  exists cur1. split; [exact C1|exact T1].
Defined.

(** X2. An undo right after a successful edit gives back the image and the
    undo stack from before the edit, with the edit's result as the only
    entry of the redo stack (what could be redone before the edit is gone);
    a redo then restores the session the edit had produced. *)
Theorem undo_after_apply :
  forall (op : operation) (self : ImageEditorApp.t) (cur new_img : image),
    current self = Some cur ->
    op (processor self) = Ok new_img ->
    let edited := after (process_with_loading op) self in
    after undo edited
    = mk (ImageProcessor.mk (Some cur) (original self))
         (ImageHistory.mk (ImageHistory.undo_stack (history self)) [new_img])
         (current_path self)
    /\ after redo (after undo edited) = edited.
Proof.
  intros op self cur new_img C O edited.
  assert (E : edited = fst (process_with_loading op self)) by reflexivity.
  rewrite (apply_success op self cur new_img C O) in E. cbn [fst] in E.
  assert (U : after undo edited
              = mk (ImageProcessor.mk (Some cur) (original self))
                   (ImageHistory.mk
                      (ImageHistory.undo_stack (history self)) [new_img])
                   (current_path self)).
  { rewrite (undo_step edited new_img cur
                       (ImageHistory.undo_stack (history self)));
      rewrite E; reflexivity. }
  split; [exact U|].
  rewrite U.
  rewrite (redo_step _ cur new_img []); [|reflexivity|reflexivity].
  rewrite E. reflexivity.
Qed.

Lemma undo_after_apply_witness :
  let self := session photo [dot] [poster] in
  let edited := after (process_with_loading (ImageProcessor.flip 1)) self in
  after undo edited
  = session photo [dot] [cv2.flip photo 1]
  /\ after redo (after undo edited) = edited.
Proof.
  intros self edited.
  exact (undo_after_apply (ImageProcessor.flip 1) self photo
                          (cv2.flip photo 1) eq_refl eq_refl).
Defined.

(** X3. With something to redo, a redo followed by an undo gives back the
    very same session. *)
Theorem undo_after_redo :
  forall self : ImageEditorApp.t,
    Loaded self ->
    ImageHistory.redo_stack (history self) <> [] ->
    after undo (after redo self) = self.
Proof.
  intros self [cur C] NE.
  destruct (exists_last NE) as (rest & top & R).
  rewrite (redo_step self cur top rest C R).
  erewrite undo_step; [|reflexivity|reflexivity].
  destruct self as [[c o] [u r] p]. unfold current, original in *.
  simpl in *. now subst.
Qed.

Lemma undo_after_redo_witness :
  let self := session photo [dot] [poster; dot] in
  Loaded self /\ after undo (after redo self) = self.
Proof.
  intros self.
  assert (L : Loaded self) by (exists photo; reflexivity).
  split; [exact L|].
  apply (undo_after_redo self L). discriminate.
Defined.

(** ** Undoing everything *)

Lemma undo_all_loaded (u : list image) :
  forall (self : ImageEditorApp.t) (cur : image),
    current self = Some cur ->
    ImageHistory.undo_stack (history self) = u ->
    let first := Nat.iter (length u) (after undo) self in
    current first = Some (hd cur u)
    /\ ImageHistory.undo_stack (history first) = []
    /\ original first = original self.
Proof.
  induction u as [|top rest IH] using rev_ind; intros self cur C U first.
  - subst first. simpl. now rewrite C, U.
  - subst first. rewrite length_app, Nat.add_comm. cbn [length Nat.add].
    rewrite (Nat.iter_succ_r (length rest) _ (after undo)).
    rewrite (undo_step self cur top rest C U).
    match goal with
    | |- context [Nat.iter _ _ ?s] =>
        destruct (IH s top eq_refl eq_refl) as (IC & IU & IO)
    end.
    rewrite IC, IU, IO. split; [|split; reflexivity].
    destruct rest; reflexivity.
Qed.

Lemma reached_invariant (imread : string -> option image)
      (self : ImageEditorApp.t) :
  reached_by_applies imread self ->
  exists cur orig : image,
    current self = Some cur
    /\ original self = Some orig
    /\ hd cur (ImageHistory.undo_stack (history self)) = orig
    /\ ImageHistory.redo_stack (history self) = [].
Proof.
  induction 1 as [path self img NE R | op self new_img _ IH O].
  - exists img, img. unfold after.
    rewrite (open_image_success imread path self img NE R).
    repeat split.
  - destruct IH as (cur & orig & C & Or & Hd & Re).
    exists new_img, orig. unfold after.
    rewrite (apply_success op self cur new_img C O). cbn.
    rewrite Or. repeat split.
    destruct (ImageHistory.undo_stack (history self)); simpl in *; assumption.
Qed.

(** X4. In a session reached by a successful load followed by successful
    edits there is nothing to redo, and undoing as many times as the undo
    stack is deep, or more often, leads back to the image that was loaded:
    the current image then equals the original and the undo stack is
    empty. *)
Theorem undo_all_returns_to_loaded_image :
  forall (imread : string -> option image) (self : ImageEditorApp.t)
         (more : nat),
    reached_by_applies imread self ->
    let depth := length (ImageHistory.undo_stack (history self)) in
    let first := Nat.iter (depth + more) (after undo) self in
    ImageHistory.redo_stack (history self) = []
    /\ Loaded first
    /\ current first = original self
    /\ ImageHistory.undo_stack (history first) = [].
Proof.
  intros imread self more R depth first.
  destruct (reached_invariant imread self R) as (cur & orig & C & O & Hd & Re).
  destruct (undo_all_loaded _ self cur C eq_refl) as (FC & FU & _).
  fold depth in FC, FU.
  assert (E : first = Nat.iter depth (after undo) self).
  { subst first. rewrite Nat.add_comm.
    induction more as [|more IH]; [reflexivity|].
    cbn [Nat.add]. rewrite Nat.iter_succ, IH.
    unfold after at 1. now rewrite undo_empty. }
  rewrite E, FC, FU, O, Hd.
  split; [exact Re|]. split; [|split; reflexivity].
  exists orig. rewrite FC. now rewrite Hd.
Qed.

Lemma undo_all_returns_to_loaded_image_witness :
  let self :=
    after (process_with_loading (ImageProcessor.flip 1))
          (after (process_with_loading ImageProcessor.grayscale)
                 (after (open_image disk "photo.png") init)) in
  reached_by_applies disk self
  /\ current (Nat.iter 5 (after undo) self) = Some photo.
Proof.
  intros self.
  assert (R : reached_by_applies disk self).
  { unfold self.
    eapply reached_apply; [|reflexivity].
    eapply reached_apply; [|reflexivity].
    apply reached_load with (img := photo); reflexivity. }
  split; [exact R|].
  exact (proj1 (proj2 (proj2
           (undo_all_returns_to_loaded_image disk self 3 R)))).
Defined.

(** ** Edits that fail, and the session after a failed load *)

(** X5. An edit attempted without an image only shows an error box, and an
    edit whose operation raises lets the exception out; in both cases the
    session is left exactly as it was.  Shrinking is such an operation when
    it leaves no pixel in one direction: a positive percentage that takes
    the width or the height of the original below one pixel makes the
    resampler raise. *)
Theorem failed_edit_leaves_session :
  forall (op : operation) (self : ImageEditorApp.t),
    (current self = None ->
     process_with_loading op self
     = (self, ShowError "No image" "Please open an image first."))
    /\ (forall e : exn,
           Loaded self ->
           op (processor self) = Raise e ->
           process_with_loading op self = (self, Raised e))
    /\ (forall (INTER_AREA : cv2.resampler) (orig : image) (percent : Z),
           Loaded self ->
           original self = Some orig ->
           well_formed orig = true ->
           0 < percent ->
           Z.of_nat (width orig) * percent < 100 * 2 ^ 31 ->
           Z.of_nat (height orig) * percent < 100 * 2 ^ 31 ->
           Z.of_nat (width orig) * percent < 100
           \/ Z.of_nat (height orig) * percent < 100 ->
           resize_popup INTER_AREA (Some percent) self
           = (self, Raised (cv2_error "inv_scale_x > 0"))).
Proof.
  intros op self. split; [|split].
  - intros C. unfold process_with_loading. now rewrite C.
  - intros e [cur C] O. unfold process_with_loading. now rewrite C, O.
  - intros INTER_AREA orig p [cur C] O WF P _ _ Small.
    destruct (resize_popup_outcome INTER_AREA p self cur orig C O WF)
      as [_ Zero]; [lia|].
    apply Zero. unfold int_truediv.
    destruct Small as [S|S]; [left|right];
      rewrite Z.quot_small; lia.
Qed.

Lemma failed_edit_leaves_session_witness :
  let self := mk (ImageProcessor.mk (Some photo) (Some dot))
                 (ImageHistory.mk [dot] [poster]) None in
  process_with_loading ImageProcessor.grayscale init
  = (init, ShowError "No image" "Please open an image first.")
  /\ resize_popup nearest (Some 50) self
     = (self, Raised (cv2_error "inv_scale_x > 0")).
Proof.
  intros self.
  destruct (failed_edit_leaves_session ImageProcessor.grayscale init)
    as (H0 & _).
  destruct (failed_edit_leaves_session ImageProcessor.grayscale self)
    as (_ & _ & H2).
  split; [exact (H0 eq_refl)|].
  apply (H2 nearest dot 50);
    [exists photo; reflexivity | reflexivity | reflexivity | lia
     | reflexivity | reflexivity | left; reflexivity].
Defined.

(** X6. After a load that the decoder refused, the session behaves as if no
    image had ever been opened, although its history is still stored:
    undo and redo do nothing, every edit and the resize dialog only show
    the error box, and so does save. *)
Theorem session_after_failed_load :
  forall (imread : string -> option image)
         (imwrite : string -> image -> result bool)
         (INTER_AREA : cv2.resampler)
         (path : string) (self : ImageEditorApp.t),
    String.eqb path "" = false ->
    imread path = None ->
    let self' := after (open_image imread path) self in
    history self' = history self
    /\ undo self' = (self', Done)
    /\ redo self' = (self', Done)
    /\ (forall op : operation,
           process_with_loading op self'
           = (self', ShowError "No image" "Please open an image first."))
    /\ (forall percent : option Z,
           resize_popup INTER_AREA percent self'
           = (self', ShowError "No image" "Please open an image first."))
    /\ (forall answer : string,
           save imwrite answer self'
           = (self', [showerror "No image" "Please open an image first."])
           /\ save_as imwrite answer self' = (self', [])).
Proof.
  intros imread imwrite INTER_AREA path self NE R self'.
  assert (E : self' = fst (open_image imread path self)) by reflexivity.
  rewrite (open_image_failure imread path self NE R) in E. cbn [fst] in E.
  rewrite E. repeat split.
Qed.

Lemma session_after_failed_load_witness :
  let self := session photo [dot] [poster] in
  let self' := after (open_image disk "notes.txt") self in
  ImageHistory.undo_stack (history self') = [dot]
  /\ undo self' = (self', Done)
  /\ process_with_loading ImageProcessor.grayscale self'
     = (self', ShowError "No image" "Please open an image first.").
Proof.
  intros self self'.
  destruct (session_after_failed_load
              disk (fun _ _ => Ok true) nearest "notes.txt"%string self
              eq_refl eq_refl)
    as (H & U & _ & A & _).
  split; [exact (f_equal ImageHistory.undo_stack H)|].
  split; [exact U|exact (A _)].
Defined.

(** X7. A successful load does not depend on the session it happens in:
    it leaves the same session as loading the file right after start, with
    the decoded image as current and original image, an empty history and
    the path as save path. *)
Theorem load_forgets_previous_session :
  forall (imread : string -> option image) (path : string) (img : image)
         (self : ImageEditorApp.t),
    String.eqb path "" = false ->
    imread path = Some img ->
    let self' := after (open_image imread path) self in
    open_image imread path self = open_image imread path init
    /\ current self' = Some img
    /\ original self' = Some img
    /\ history self' = ImageHistory.init
    /\ current_path self' = Some path
    /\ undo self' = (self', Done)
    /\ redo self' = (self', Done).
Proof.
  intros imread path img self NE R self'.
  assert (E : self' = fst (open_image imread path self)) by reflexivity.
  rewrite (open_image_success imread path self img NE R) in E.
  cbn [fst] in E.
  rewrite (open_image_success imread path self img NE R).
  rewrite (open_image_success imread path init img NE R).
  rewrite E. repeat split.
Qed.

Lemma load_forgets_previous_session_witness :
  let self := session dot [dot] [poster] in
  open_image disk "photo.png" self = open_image disk "photo.png" init
  /\ current (after (open_image disk "photo.png") self) = Some photo.
Proof.
  intros self.
  destruct (load_forgets_previous_session
              disk "photo.png"%string photo self eq_refl eq_refl)
    as (H & C & _).
  split; [exact H|exact C].
Defined.

(** ** Flips and rotations together *)

Lemma flip_twice {A : Type} (m : list (list A)) (axis : Z) :
  cv2.flip (cv2.flip m axis) axis = m.
Proof.
  unfold cv2.flip.
  destruct (axis =? 0); [apply rev_involutive|].
  destruct (0 <? axis).
  - rewrite map_map. rewrite <- (map_id m) at 2.
    apply map_ext. apply rev_involutive.
  - rewrite <- map_rev, rev_involutive, map_map.
    rewrite <- (map_id m) at 2. apply map_ext. apply rev_involutive.
Qed.

Lemma apply_flip (axis : Z) (self : ImageEditorApp.t) (img : image) :
  current self = Some img ->
  current (after (process_with_loading (ImageProcessor.flip axis)) self)
  = Some (cv2.flip img axis).
Proof.
  intros C. unfold after.
  rewrite (apply_success _ self img (cv2.flip img axis) C); [reflexivity|].
  unfold ImageProcessor.flip, ImageProcessor.on_current.
  unfold current in C. now rewrite C.
Qed.

(** X8. Flipping twice about the same axis gives back the array, for every
    axis code and every array, also through two clicks in a session; one
    flip about each axis, in either order, is the half turn of
    [cv2.rotate]. *)
Theorem flip_involutive :
  forall (img : image) (axis : Z) (self : ImageEditorApp.t),
    bind (ImageProcessor.flip axis (ImageProcessor.mk (Some img) None))
         (fun once =>
            ImageProcessor.flip axis (ImageProcessor.mk (Some once) None))
    = Ok img
    /\ current (after (process_with_loading (ImageProcessor.flip axis))
                  (after (process_with_loading (ImageProcessor.flip axis))
                         self))
       = current self
    /\ Ok (cv2.flip (cv2.flip img 1) 0) = cv2.rotate img cv2.ROTATE_180
    /\ Ok (cv2.flip (cv2.flip img 0) 1) = cv2.rotate img cv2.ROTATE_180.
Proof.
  intros img axis self. split; [|split; [|split]].
  - unfold ImageProcessor.flip, ImageProcessor.on_current.
    cbn [ImageProcessor.current_cv_image]. rewrite bind_Ok.
    now rewrite flip_twice.
  - destruct (current self) as [cur|] eqn:C.
    + rewrite (apply_flip axis _ (cv2.flip cur axis)).
      * now rewrite flip_twice.
      * now apply apply_flip.
    + unfold after, process_with_loading. rewrite C. cbn [fst].
      now rewrite C.
  - reflexivity.
  - unfold cv2.rotate, cv2.flip. cbn. unfold Ok. f_equal. apply map_rev.
Qed.

Section QuarterTurns.

Context {A : Type}.
Implicit Types (m : list (list A)).

Lemma transpose_w_rev (h w : nat) m :
  rect h w m ->
  cv2.transpose_w w (rev m) = map (@rev A) (cv2.transpose_w w m).
Proof.
  intros R.
  pose proof (transpose_w_rect h w m R) as RT.
  assert (E : cv2.transpose_w h (map (@rev A) (cv2.transpose_w w m))
              = rev m).
  { rewrite transpose_w_map_rev by apply RT.
    now rewrite (transpose_w_involutive h w m R). }
  rewrite <- E.
  apply (transpose_w_involutive w h). now apply rect_map_rev.
Qed.

Lemma rot270_rect (h w : nat) m :
  rect h w m -> (0 < h)%nat -> rect w h (rot270 m).
Proof.
  intros R H. unfold rot270, cv2.flip, cv2.transpose. simpl.
  rewrite (rect_width h w m R H).
  now apply rect_rev, transpose_w_rect.
Qed.

Lemma rot270_rot90 (h w : nat) m :
  rect h w m -> (0 < h)%nat -> (0 < w)%nat -> rot270 (rot90 m) = m.
Proof.
  intros R H W.
  assert (R1 := rot90_rect h w m R H).
  unfold rot270, cv2.transpose. rewrite (rect_width w h _ R1 W).
  unfold rot90, cv2.flip, cv2.transpose. simpl.
  rewrite (rect_width h w m R H).
  destruct (transpose_w_rect h w m R) as [_ F].
  rewrite transpose_w_map_rev by assumption.
  rewrite (transpose_w_involutive h w m R).
  apply rev_involutive.
Qed.

Lemma rot90_rot270 (h w : nat) m :
  rect h w m -> (0 < h)%nat -> (0 < w)%nat -> rot90 (rot270 m) = m.
Proof.
  intros R H W.
  assert (R1 := rot270_rect h w m R H).
  unfold rot90, cv2.transpose. rewrite (rect_width w h _ R1 W).
  unfold rot270, cv2.flip, cv2.transpose. simpl.
  rewrite (rect_width h w m R H).
  rewrite (transpose_w_rev w h) by now apply transpose_w_rect.
  rewrite (transpose_w_involutive h w m R).
  rewrite map_map. rewrite <- (map_id m) at 2.
  apply map_ext. apply rev_involutive.
Qed.

End QuarterTurns.

(** X9. On an array with positive dimensions a quarter turn clockwise and
    a quarter turn counterclockwise undo each other in either order, two
    clockwise quarter turns are the half turn, and two half turns give
    back the array. *)
Theorem rotations_compose :
  forall img : image,
    well_formed img = true ->
    let turn := fun code (a : image) => cv2.rotate a code in
    bind (turn cv2.ROTATE_90_CLOCKWISE img)
         (turn cv2.ROTATE_90_COUNTERCLOCKWISE) = Ok img
    /\ bind (turn cv2.ROTATE_90_COUNTERCLOCKWISE img)
            (turn cv2.ROTATE_90_CLOCKWISE) = Ok img
    /\ bind (turn cv2.ROTATE_90_CLOCKWISE img)
            (turn cv2.ROTATE_90_CLOCKWISE)
       = turn cv2.ROTATE_180 img
    /\ bind (turn cv2.ROTATE_180 img) (turn cv2.ROTATE_180) = Ok img.
Proof.
  intros img WF turn.
  destruct (well_formed_rect img WF) as (R & H & W).
  unfold turn. split; [|split; [|split]].
  - rewrite rotate_90_clockwise, bind_Ok.
    change (cv2.rotate (rot90 img) cv2.ROTATE_90_COUNTERCLOCKWISE)
      with (Ok (rot270 (rot90 img))).
    now rewrite (rot270_rot90 _ _ img R H W).
  - change (cv2.rotate img cv2.ROTATE_90_COUNTERCLOCKWISE)
      with (Ok (rot270 img)).
    rewrite bind_Ok, rotate_90_clockwise.
    now rewrite (rot90_rot270 _ _ img R H W).
  - rewrite rotate_90_clockwise, bind_Ok, rotate_90_clockwise.
    now rewrite (rot90_rot90 _ _ img R H W).
  - change (cv2.rotate img cv2.ROTATE_180) with (Ok (cv2.flip img (-1))).
    rewrite bind_Ok.
    change (cv2.rotate (cv2.flip img (-1)) cv2.ROTATE_180)
      with (Ok (cv2.flip (cv2.flip img (-1)) (-1))).
    now rewrite flip_twice.
Qed.

Lemma rotations_compose_witness :
  well_formed photo = true
  /\ bind (cv2.rotate photo cv2.ROTATE_90_COUNTERCLOCKWISE)
          (fun a => cv2.rotate a cv2.ROTATE_90_CLOCKWISE) = Ok photo.
Proof.
  split; [reflexivity|].
  exact (proj1 (proj2 (rotations_compose photo eq_refl))).
Defined.

(** ** What the sidebar buttons return *)

Lemma rect_map_pixels {A B : Type} (f : A -> B) (h w : nat)
      (m : list (list A)) :
  rect h w m -> rect h w (map_pixels f m).
Proof.
  intros [L F]. split.
  - unfold map_pixels. now rewrite length_map.
  - unfold map_pixels. apply Forall_map. revert F. apply Forall_impl.
    intros row. now rewrite length_map.
Qed.

Lemma rect_grid {A : Type} (h w : nat) (f : nat -> nat -> A) :
  rect h w (cv2.grid h w f).
Proof.
  unfold cv2.grid. split.
  - now rewrite length_map, length_seq.
  - apply Forall_map, Forall_forall. intros y _.
    now rewrite length_map, length_seq.
Qed.

(** The kernel side [blur] asks for. *)
Lemma blur_kernel (value : Z) :
  let k := Z.max 1 (value * 2 + 1) in
  1 <= k /\ Z.odd k = true /\ (0 <= value -> k = 2 * value + 1)
  /\ (value <= 0 -> k = 1).
Proof.
  intros k. subst k.
  destruct (Z.max_spec 1 (value * 2 + 1)) as [[L E]|[L E]]; rewrite E.
  - split; [lia|]. split; [|split; lia].
    replace (value * 2 + 1) with (1 + 2 * value) by lia.
    now rewrite Z.odd_add_mul_2.
  - split; [lia|]. split; [reflexivity|]. split; lia.
Qed.

Lemma GaussianBlur_ok (GAUSSIAN : cv2.smoother) (img : image) (k : Z) :
  1 <= k -> Z.odd k = true ->
  cv2.GaussianBlur GAUSSIAN img (k, k)
  = Ok (if k =? 1 then img
        else cv2.grid (height img) (width img) (GAUSSIAN img (k, k))).
Proof.
  intros P O. unfold cv2.GaussianBlur.
  destruct (k =? 1) eqn:E; [reflexivity|]. cbn [andb].
  replace (0 <? k) with true by (symmetry; apply Z.ltb_lt; lia).
  now rewrite O.
Qed.

Section Buttons.

Variable GAUSSIAN : cv2.smoother.
Variable CANNY : cv2.edge_detector.

(** What each button computes from the current image. *)
Lemma command_result (b : button) (p : ImageProcessor.t) (img : image) :
  ImageProcessor.current_cv_image p = Some img ->
  exists out : image,
    command GAUSSIAN CANNY b p = Ok out
    /\ forall h w : nat,
        rect h w img -> (0 < h)%nat -> (0 < w)%nat ->
        if quarter_turn b then rect w h out else rect h w out.
Proof.
  intros C.
  destruct b as [| |value|brightness contrast| | | | |];
    unfold command, ImageProcessor.grayscale, ImageProcessor.edges,
      ImageProcessor.blur, ImageProcessor.brightness_contrast,
      ImageProcessor.rotate, ImageProcessor.flip, ImageProcessor.on_current;
    rewrite C; cbn [quarter_turn].
  - eexists. split; [reflexivity|]. intros h w R H W.
    unfold cv2.cvtColor_GRAY2BGR, cv2.cvtColor_BGR2GRAY.
    now do 2 apply rect_map_pixels.
  - eexists. split; [reflexivity|]. intros h w R H W.
    unfold cv2.cvtColor_GRAY2BGR, cv2.Canny.
    apply rect_map_pixels.
    assert (S : shape (cv2.cvtColor_BGR2GRAY img) = (h, w)).
    { unfold cv2.cvtColor_BGR2GRAY. rewrite map_pixels_shape.
      now apply (rect_well_formed h w img R H W). }
    unfold height, width. rewrite S. apply rect_grid.
  - destruct (blur_kernel value) as (P & O & _).
    rewrite (GaussianBlur_ok GAUSSIAN img _ P O).
    eexists. split; [reflexivity|]. intros h w R H W.
    destruct (Z.max 1 (value * 2 + 1) =? 1); [assumption|].
    destruct (rect_well_formed h w img R H W) as [_ S].
    unfold height, width. rewrite S. apply rect_grid.
  - eexists. split; [reflexivity|]. intros h w R H W.
    unfold cv2.convertScaleAbs. now apply rect_map_pixels.
  - exists (rot90 img). split; [reflexivity|]. intros h w R H W.
    now apply rot90_rect.
  - exists (cv2.flip img (-1)). split; [reflexivity|]. intros h w R H W.
    unfold cv2.flip. simpl. now apply rect_rev, rect_map_rev.
  - exists (rot270 img). split; [reflexivity|]. intros h w R H W.
    now apply rot270_rect.
  - exists (cv2.flip img 1). split; [reflexivity|]. intros h w R H W.
    unfold cv2.flip. simpl. now apply rect_map_rev.
  - exists (cv2.flip img 0). split; [reflexivity|]. intros h w R H W.
    unfold cv2.flip. simpl. now apply rect_rev.
Qed.

End Buttons.

(** X10. Once an image is loaded no sidebar button can fail, whatever the
    sliders show: the callback returns normally, the image it replaces is
    pushed on the undo stack and the redo stack is emptied. *)
Theorem sidebar_button_never_fails :
  forall (GAUSSIAN : cv2.smoother) (CANNY : cv2.edge_detector)
         (b : button) (self : ImageEditorApp.t) (cur : image),
    current self = Some cur ->
    exists out : image,
      command GAUSSIAN CANNY b (processor self) = Ok out
      /\ press GAUSSIAN CANNY b self
         = (mk (ImageProcessor.mk (Some out) (original self))
               (ImageHistory.mk
                  (ImageHistory.undo_stack (history self) ++ [cur]) [])
               (current_path self),
            Done).
Proof.
  intros GAUSSIAN CANNY b self cur C.
  destruct (command_result GAUSSIAN CANNY b (processor self) cur C)
    as (out & E & _).
  exists out. split; [exact E|].
  unfold press. now apply apply_success.
Qed.

Lemma sidebar_button_never_fails_witness :
  exists out : image,
    press nearest (fun _ _ _ _ => true) (ApplyBlur 15)
          (session photo [] [dot])
    = (session out [photo] [], Done).
Proof.
  destruct (sidebar_button_never_fails
              nearest (fun _ _ _ _ => true) (ApplyBlur 15)
              (session photo [] [dot]) photo eq_refl)
    as (out & _ & E).
  exists out. exact E.
Defined.

Lemma command_shape (GAUSSIAN : cv2.smoother) (CANNY : cv2.edge_detector)
      (b : button) (p : ImageProcessor.t) (img : image) :
  ImageProcessor.current_cv_image p = Some img ->
  well_formed img = true ->
  exists out : image,
    command GAUSSIAN CANNY b p = Ok out
    /\ well_formed out = true
    /\ shape out = if quarter_turn b then (width img, height img)
                   else (height img, width img).
Proof.
  intros C WF.
  destruct (well_formed_rect img WF) as (R & H & W).
  destruct (command_result GAUSSIAN CANNY b p img C) as (out & E & Sh).
  exists out. split; [exact E|].
  specialize (Sh _ _ R H W).
  destruct (quarter_turn b).
  - now apply rect_well_formed.
  - now apply rect_well_formed.
Qed.

(** X11. On a rectangular current image with positive dimensions every
    sidebar button returns such an image again, of the same height and
    width, except the two quarter turns, which swap them. *)
Theorem sidebar_button_shape :
  forall (GAUSSIAN : cv2.smoother) (CANNY : cv2.edge_detector)
         (b : button) (p : ImageProcessor.t) (img : image),
    ImageProcessor.current_cv_image p = Some img ->
    well_formed img = true ->
    exists out : image,
      command GAUSSIAN CANNY b p = Ok out
      /\ well_formed out = true
      /\ shape out = if quarter_turn b then (width img, height img)
                     else (height img, width img).
Proof.
  intros GAUSSIAN CANNY b p img C WF.
  exact (command_shape GAUSSIAN CANNY b p img C WF).
Qed.

Lemma sidebar_button_shape_witness :
  exists out : image,
    command nearest (fun _ _ _ _ => true) Rotate270
            (ImageProcessor.mk (Some photo) None) = Ok out
    /\ shape out = (3, 2)%nat.
Proof.
  destruct (sidebar_button_shape
              nearest (fun _ _ _ _ => true) Rotate270
              (ImageProcessor.mk (Some photo) None) photo eq_refl eq_refl)
    as (out & E & _ & S).
  exists out. split; [exact E|exact S].
Defined.

(** ** What saving leaves alone *)

Section Saving.

Variable imwrite : string -> image -> result bool.

Lemma save_as_frame (answer : string) (self : ImageEditorApp.t) :
  processor (fst (save_as imwrite answer self)) = processor self
  /\ history (fst (save_as imwrite answer self)) = history self.
Proof.
  unfold save_as.
  destruct (current self) as [cur|]; [|now split].
  destruct (String.eqb answer ""); [now split|].
  destruct (imwrite answer cur); now split.
Qed.

Lemma save_frame (answer : string) (self : ImageEditorApp.t) :
  processor (fst (save imwrite answer self)) = processor self
  /\ history (fst (save imwrite answer self)) = history self.
Proof.
  unfold save.
  destruct (current self) as [cur|] eqn:C; [|now split].
  destruct (current_path self) as [path|]; [|apply save_as_frame].
  destruct (String.eqb path ""); [apply save_as_frame|].
  destruct (imwrite path cur); now split.
Qed.

End Saving.

(** ** Every array of a session is well formed *)

Lemma well_formed_session_ok (self : ImageEditorApp.t) :
  well_formed_session self = true <-> session_ok self.
Proof.
  unfold well_formed_session. rewrite !andb_true_iff, !forallb_forall.
  split.
  - intros [[[C O] U] R]. split.
    + intros img E. rewrite E in C. exact C.
    + intros img E. rewrite E in O. exact O.
    + now apply Forall_forall.
    + now apply Forall_forall.
  - intros [C O U R]. repeat split.
    + destruct (current self); [now apply C|reflexivity].
    + destruct (original self); [now apply O|reflexivity].
    + now apply Forall_forall.
    + now apply Forall_forall.
Qed.

Lemma apply_cases (op : operation) (self : ImageEditorApp.t) :
  after (process_with_loading op) self = self
  \/ exists cur new_img : image,
      current self = Some cur
      /\ op (processor self) = Ok new_img
      /\ after (process_with_loading op) self
         = mk (ImageProcessor.mk (Some new_img) (original self))
              (ImageHistory.mk
                 (ImageHistory.undo_stack (history self) ++ [cur]) [])
              (current_path self).
Proof.
  unfold after, process_with_loading.
  destruct (current self) as [cur|] eqn:C; [|now left].
  destruct (op (processor self)) as [e|new_img] eqn:O; [now left|].
  right. exists cur, new_img. repeat split.
Qed.

Lemma apply_ok (op : operation) (self : ImageEditorApp.t) :
  session_ok self ->
  (forall cur new_img : image,
      current self = Some cur -> well_formed cur = true ->
      op (processor self) = Ok new_img -> well_formed new_img = true) ->
  session_ok (after (process_with_loading op) self).
Proof.
  intros OK W.
  destruct (apply_cases op self) as [E|(cur & new_img & C & O & E)];
    rewrite E; [assumption|].
  destruct OK as [OC OO OU OR].
  split; cbn.
  - intros img [= <-]. now apply (W cur); [|apply OC|].
  - exact OO.
  - apply Forall_app. split; [assumption|].
    constructor; [now apply OC|constructor].
  - constructor.
Qed.

Lemma resize_well_formed (INTER_AREA : cv2.resampler) (percent : Z)
      (p : ImageProcessor.t) (out : image) :
  ImageProcessor.resize INTER_AREA percent p = Ok out ->
  well_formed out = true.
Proof.
  unfold ImageProcessor.resize, Ok, Raise.
  destruct (ImageProcessor.original_reference p) as [orig|];
    [|discriminate].
  unfold shape. cbv beta iota zeta.
  unfold cv2.resize, Ok, Raise. cbv beta iota zeta.
  destruct ((height orig =? 0)%nat || (width orig =? 0)%nat)%bool;
    [discriminate|].
  set (dw := int_truediv _ _). set (dh := int_truediv _ _).
  destruct ((dw <=? 0) || (dh <=? 0))%bool eqn:D; [discriminate|].
  apply orb_false_iff in D. destruct D as [DW DH].
  apply Z.leb_gt in DW, DH.
  intros [= <-].
  apply (rect_well_formed (Z.to_nat dh) (Z.to_nat dw)); [|lia|lia].
  apply (rect_grid (Z.to_nat dh) (Z.to_nat dw)).
Qed.

Section Invariant.

Variable imread : string -> option image.
Variable imwrite : string -> image -> result bool.
Variable INTER_AREA : cv2.resampler.
Variable GAUSSIAN : cv2.smoother.
Variable CANNY : cv2.edge_detector.

(** The decoder returns rectangular arrays with positive dimensions. *)
Hypothesis imread_well_formed :
  forall (path : string) (img : image),
    imread path = Some img -> well_formed img = true.

Lemma step_ok (c : click) (self : ImageEditorApp.t) :
  session_ok self ->
  session_ok (step imread imwrite INTER_AREA GAUSSIAN CANNY c self).
Proof.
  intros OK. destruct c as [b|percent| | |path|answer|answer]; cbn [step].
  - unfold press. apply apply_ok; [assumption|].
    intros cur new_img C WF O. unfold current in C.
    destruct (command_shape GAUSSIAN CANNY b _ cur C WF)
      as (out & E & WO & _).
    rewrite E in O. unfold Ok in O. now injection O as <-.
  - unfold after, resize_popup.
    destruct (current self) as [cur|] eqn:C; [|assumption].
    destruct percent as [p|]; [|assumption].
    destruct (p =? 0); [assumption|].
    apply (apply_ok (ImageProcessor.resize INTER_AREA p)); [assumption|].
    intros _ new_img _ _ O. now apply resize_well_formed in O.
  - destruct (current self) as [cur|] eqn:C;
      [|unfold after, undo; now rewrite C].
    destruct (ImageHistory.undo_stack (history self)) as [|x l] eqn:U.
    + unfold after. now rewrite undo_empty.
    + assert (NE : x :: l <> []) by discriminate.
      destruct (exists_last NE) as (rest & top & E). rewrite E in U.
      rewrite (undo_step self cur top rest C U).
      destruct OK as [OC OO OU OR]. rewrite U in OU.
      apply Forall_app in OU. destruct OU as [OU1 OU2].
      split; cbn.
      * intros img [= <-]. now inversion OU2.
      * exact OO.
      * exact OU1.
      * apply Forall_app. split; [assumption|].
        constructor; [now apply OC|constructor].
  - destruct (current self) as [cur|] eqn:C;
      [|unfold after, redo; now rewrite C].
    destruct (ImageHistory.redo_stack (history self)) as [|x l] eqn:U.
    + unfold after. now rewrite redo_empty.
    + assert (NE : x :: l <> []) by discriminate.
      destruct (exists_last NE) as (rest & top & E). rewrite E in U.
      rewrite (redo_step self cur top rest C U).
      destruct OK as [OC OO OU OR]. rewrite U in OR.
      apply Forall_app in OR. destruct OR as [OR1 OR2].
      split; cbn.
      * intros img [= <-]. now inversion OR2.
      * exact OO.
      * apply Forall_app. split; [assumption|].
        constructor; [now apply OC|constructor].
      * exact OR1.
  - unfold after. destruct (String.eqb path "") eqn:NE.
    + unfold open_image. now rewrite NE.
    + destruct (imread path) as [img|] eqn:R.
      * rewrite (open_image_success imread path self img NE R). cbn.
        pose proof (imread_well_formed path img R) as WF.
        split; cbn; try constructor; now intros i [= <-].
      * rewrite (open_image_failure imread path self NE R). cbn.
        destruct OK as [OC OO OU OR].
        split; cbn; try assumption. discriminate.
  - destruct (save_frame imwrite answer self) as [P H].
    destruct OK as [OC OO OU OR].
    split; unfold current, original; rewrite ?P, ?H; assumption.
  - destruct (save_as_frame imwrite answer self) as [P H].
    destruct OK as [OC OO OU OR].
    split; unfold current, original; rewrite ?P, ?H; assumption.
Qed.

Lemma steps_ok (cs : list click) :
  forall self : ImageEditorApp.t,
    session_ok self ->
    session_ok (steps imread imwrite INTER_AREA GAUSSIAN CANNY cs self).
Proof.
  unfold steps.
  induction cs as [|c cs IH]; intros self OK; [assumption|].
  cbn [fold_left]. apply IH. now apply step_ok.
Qed.

End Invariant.

(** X12. If the decoder only returns rectangular arrays with positive
    dimensions, then after any sequence of clicks (sidebar buttons with any
    slider values, resize with any answer, undo, redo, open, save, save
    as) every array the session holds is such an array: the current image,
    the original and every entry of the two stacks. *)
Theorem session_stays_well_formed :
  forall (imread : string -> option image)
         (imwrite : string -> image -> result bool)
         (INTER_AREA : cv2.resampler) (GAUSSIAN : cv2.smoother)
         (CANNY : cv2.edge_detector) (cs : list click),
    (forall (path : string) (img : image),
        imread path = Some img -> well_formed img = true) ->
    well_formed_session
      (steps imread imwrite INTER_AREA GAUSSIAN CANNY cs init)
    = true.
Proof.
  intros imread imwrite INTER_AREA GAUSSIAN CANNY cs W.
  apply well_formed_session_ok. apply steps_ok; [assumption|].
  split; cbn; try constructor; discriminate.
Qed.

Lemma disk_well_formed (path : string) (img : image) :
  disk path = Some img -> well_formed img = true.
Proof.
  unfold disk. destruct (String.eqb path "photo.png"); [|discriminate].
  now intros [= <-].
Defined.

Lemma session_stays_well_formed_witness :
  well_formed_session
    (steps disk (fun _ _ => Ok true) nearest nearest (fun _ _ _ _ => true)
           [Open "photo.png"; Press Rotate90; ResizeImage (Some 150);
            Press (ApplyBlur 3); Undo; Undo; Redo; Press EdgeDetection]
           init)
  = true.
Proof.
  exact (session_stays_well_formed
           disk (fun _ _ => Ok true) nearest nearest (fun _ _ _ _ => true)
           _ disk_well_formed).
Defined.

(** ** Samples *)

Lemma all_pixels_map_pixels {A B : Type} (P : B -> bool) (f : A -> B)
      (img : list (list A)) :
  all_pixels P (map_pixels f img) = all_pixels (fun a => P (f a)) img.
Proof.
  unfold all_pixels, map_pixels.
  induction img as [|row img IH]; [reflexivity|].
  cbn [map forallb]. rewrite IH. f_equal.
  induction row as [|a row IHrow]; [reflexivity|].
  cbn [map forallb]. now rewrite IHrow.
Qed.

Lemma all_pixels_always {A : Type} (P : A -> bool) (img : list (list A)) :
  (forall a, P a = true) -> all_pixels P img = true.
Proof.
  intros H. unfold all_pixels.
  apply forallb_forall. intros row _.
  apply forallb_forall. intros a _. apply H.
Qed.

Lemma all_pixels_impl {A : Type} (P Q : A -> bool) (img : list (list A)) :
  (forall a, P a = true -> Q a = true) ->
  all_pixels P img = true -> all_pixels Q img = true.
Proof.
  unfold all_pixels. rewrite !forallb_forall. intros I H row R.
  specialize (H row R). rewrite forallb_forall in *.
  intros a Ia. now apply I, H.
Qed.

Lemma all_pixels_grid {A : Type} (P : A -> bool) (h w : nat)
      (f : nat -> nat -> A) :
  (forall y x, P (f y x) = true) -> all_pixels P (cv2.grid h w f) = true.
Proof.
  intros H. unfold all_pixels, cv2.grid.
  apply forallb_forall. intros row R.
  apply in_map_iff in R. destruct R as (y & <- & _).
  apply forallb_forall. intros a Ia.
  apply in_map_iff in Ia. destruct Ia as (x & <- & _). apply H.
Qed.

Lemma map_pixels_fixed {A : Type} (P : A -> bool) (f : A -> A)
      (img : list (list A)) :
  (forall a, P a = true -> f a = a) ->
  all_pixels P img = true -> map_pixels f img = img.
Proof.
  unfold all_pixels, map_pixels. intros F H.
  rewrite forallb_forall in H.
  rewrite <- (map_id img) at 2. apply map_ext_in. intros row R.
  specialize (H row R). rewrite forallb_forall in H.
  rewrite <- (map_id row) at 2. apply map_ext_in. intros a Ia.
  now apply F, H.
Qed.

Lemma map_pixels_ext_on {A B : Type} (P : A -> bool) (f g : A -> B)
      (img : list (list A)) :
  (forall a, P a = true -> f a = g a) ->
  all_pixels P img = true -> map_pixels f img = map_pixels g img.
Proof.
  unfold all_pixels, map_pixels. intros F H.
  rewrite forallb_forall in H.
  apply map_ext_in. intros row R.
  specialize (H row R). rewrite forallb_forall in H.
  apply map_ext_in. intros a Ia. now apply F, H.
Qed.

Lemma shape_grid {A B : Type} (m : list (list A)) (f : nat -> nat -> B) :
  shape (cv2.grid (height m) (width m) f) = shape m.
Proof.
  unfold cv2.grid, height, width, shape. cbn [fst snd].
  rewrite length_map, length_seq. f_equal.
  destruct m as [|row m]; [reflexivity|].
  cbn. now rewrite length_map, length_seq.
Qed.

Lemma uchar_spec (v : Z) : uchar v = true <-> 0 <= v <= 255.
Proof.
  unfold uchar. rewrite andb_true_iff, !Z.leb_le. tauto.
Qed.

Lemma saturate_cast_uchar_range (z : Z) :
  uchar (cv2.saturate_cast_uchar z) = true.
Proof.
  apply uchar_spec. unfold cv2.saturate_cast_uchar. lia.
Qed.

(** With an integral contrast the scaled value is an integer and rounding
    leaves it alone. *)
Lemma convertScaleAbs_integral_contrast (c beta v : Z) :
  cv2.convertScaleAbs_sample (inject_Z c) beta v
  = Z.min 255 (Z.abs (c * v + beta)).
Proof.
  unfold cv2.convertScaleAbs_sample, cv2.cvRound, Qabs, Qplus, Qmult, inject_Z.
  cbn [Qnum Qden Pos.mul].
  rewrite !Z.mul_1_r, Z.div_1_r, Z.mod_1_r.
  cbn [Z.mul Z.ltb Z.compare].
  unfold cv2.saturate_cast_uchar. lia.
Qed.

(** X13. Whatever the sliders and whatever the input samples, every sample
    [brightness_contrast] returns lies between 0 and 255, and the array
    keeps its shape. *)
Theorem brightness_contrast_stays_8bit :
  forall (img : image) (original : option image) (brightness : Z)
         (contrast : Q),
  exists out : image,
    ImageProcessor.brightness_contrast
      brightness contrast (ImageProcessor.mk (Some img) original) = Ok out
    /\ all_pixels uchar_pixel out = true
    /\ shape out = shape img.
Proof.
  intros img original brightness contrast.
  eexists. split; [reflexivity|]. unfold cv2.convertScaleAbs. split.
  - rewrite all_pixels_map_pixels. apply all_pixels_always.
    intros p. unfold uchar_pixel, map_samples. cbn [blue green red].
    unfold cv2.convertScaleAbs_sample.
    now rewrite !saturate_cast_uchar_range.
  - apply map_pixels_shape.
Qed.

(** X14. With the sliders where the window puts them at start, brightness
    0 and contrast 1.0, [brightness_contrast] returns an 8-bit image
    unchanged. *)
Theorem default_adjustments_change_nothing :
  forall (img : image) (original : option image),
    all_pixels uchar_pixel img = true ->
    ImageProcessor.brightness_contrast
      0 1 (ImageProcessor.mk (Some img) original) = Ok img.
Proof.
  intros img original U.
  unfold ImageProcessor.brightness_contrast, ImageProcessor.on_current,
    cv2.convertScaleAbs.
  cbn [ImageProcessor.current_cv_image].
  rewrite (map_pixels_fixed uchar_pixel); [reflexivity| |assumption].
  intros [b g r]. unfold uchar_pixel, map_samples. cbn [blue green red].
  rewrite !andb_true_iff, !uchar_spec. intros [[B G] R].
  rewrite !convertScaleAbs_unit_contrast. f_equal; lia.
Qed.

Lemma default_adjustments_change_nothing_witness :
  all_pixels uchar_pixel photo = true
  /\ ImageProcessor.brightness_contrast
       0 1 (ImageProcessor.mk (Some photo) None) = Ok photo.
Proof.
  split; [reflexivity|].
  exact (default_adjustments_change_nothing photo None eq_refl).
Defined.

(** X15. Brightening an 8-bit image with the sliders (brightness from 0 to
    100) at an integral contrast of the slider (1, 2 or 3) follows the
    clamp formula exactly: every sample [v] becomes
    [min 255 (contrast*v + brightness)]. *)
Theorem brightening_is_clamped_affine :
  forall (img : image) (original : option image) (brightness contrast : Z),
    0 <= brightness <= 100 ->
    1 <= contrast <= 3 ->
    all_pixels uchar_pixel img = true ->
    ImageProcessor.brightness_contrast
      brightness (inject_Z contrast) (ImageProcessor.mk (Some img) original)
    = Ok (map_pixels
            (map_samples (fun v => Z.min 255 (contrast * v + brightness)))
            img).
Proof.
  intros img original b c [B _] [C _] U.
  unfold ImageProcessor.brightness_contrast, ImageProcessor.on_current,
    cv2.convertScaleAbs.
  cbn [ImageProcessor.current_cv_image].
  rewrite (map_pixels_ext_on uchar_pixel _
             (map_samples (fun v => Z.min 255 (c * v + b))));
    [reflexivity| |assumption].
  intros [pb pg pr]. unfold uchar_pixel, map_samples. cbn [blue green red].
  rewrite !andb_true_iff, !uchar_spec. intros [[Hb Hg] Hr].
  rewrite !convertScaleAbs_integral_contrast.
  f_equal; rewrite Z.abs_eq; nia.
Qed.

Lemma brightening_is_clamped_affine_witness :
  ImageProcessor.brightness_contrast
    30 (inject_Z 2) (ImageProcessor.mk (Some dot) None)
  = Ok [[BGR 30 30 255]].
Proof.
  exact (brightening_is_clamped_affine
           dot None 30 2 ltac:(lia) ltac:(lia) eq_refl).
Defined.

(** The luminance lies between the smallest and the largest of the three
    samples. *)
Lemma luminance_bounds (p : pixel) :
  Z.min (Z.min (blue p) (green p)) (red p) <= cv2.luminance p
  <= Z.max (Z.max (blue p) (green p)) (red p).
Proof.
  destruct p as [b g r].
  unfold cv2.luminance, cv2.gray_shift, cv2.BY15, cv2.GY15, cv2.RY15.
  cbn [blue green red].
  rewrite Z.shiftr_div_pow2 by lia.
  change (Z.shiftl 1 (15 - 1)) with 16384.
  change (2 ^ 15) with 32768.
  split.
  - apply Z.div_le_lower_bound; lia.
  - apply Z.lt_succ_r. apply Z.div_lt_upper_bound; lia.
Qed.

(** X16. Grayscale returns an array of the same shape in which the three
    samples of every pixel are equal, their common value lying between the
    smallest and the largest sample of the input pixel; so an 8-bit image
    stays 8-bit, and black and white pixels stay as they are. *)
Theorem grayscale_output :
  forall (img : image) (original : option image),
    ImageProcessor.grayscale (ImageProcessor.mk (Some img) original)
    = Ok (map_pixels
            (fun p => BGR (cv2.luminance p) (cv2.luminance p)
                          (cv2.luminance p))
            img)
    /\ (forall p : pixel,
           Z.min (Z.min (blue p) (green p)) (red p) <= cv2.luminance p
           <= Z.max (Z.max (blue p) (green p)) (red p))
    /\ all_pixels is_gray (to_gray img) = true
    /\ shape (to_gray img) = shape img
    /\ (all_pixels uchar_pixel img = true ->
        all_pixels uchar_pixel (to_gray img) = true).
Proof.
  intros img original.
  assert (E : to_gray img
              = map_pixels
                  (fun p => BGR (cv2.luminance p) (cv2.luminance p)
                                (cv2.luminance p)) img).
  { unfold to_gray, cv2.cvtColor_GRAY2BGR, cv2.cvtColor_BGR2GRAY.
    apply map_pixels_compose. }
  split; [exact (f_equal Ok E)|].
  split; [exact luminance_bounds|].
  rewrite E. split; [|split].
  - rewrite all_pixels_map_pixels. apply all_pixels_always.
    intros p. unfold is_gray. cbn [blue green red].
    now rewrite Z.eqb_refl.
  - apply map_pixels_shape.
  - rewrite all_pixels_map_pixels. apply all_pixels_impl.
    intros p. unfold uchar_pixel. cbn [blue green red].
    rewrite !andb_true_iff, !uchar_spec. intros [[B G] R].
    pose proof (luminance_bounds p). lia.
Qed.

Lemma grayscale_output_witness :
  all_pixels uchar_pixel photo = true
  /\ all_pixels uchar_pixel (to_gray photo) = true.
Proof.
  split; [reflexivity|].
  exact (proj2 (proj2 (proj2 (proj2 (grayscale_output photo None))))
               eq_refl).
Defined.

(** X17. [blur] never asks the library for a kernel it rejects: for every
    value up to 15, the largest the slider gives, the kernel side is odd,
    at least 1 and at most 31, the call succeeds and the result has the
    shape of the current image.  For a value of 0 or less the kernel is 1
    by 1 and the image comes back unchanged; for a value from 0 to 15 the
    side is [2*value + 1]. *)
Theorem blur_kernel_is_valid :
  forall (GAUSSIAN : cv2.smoother) (value : Z) (img : image)
         (original : option image),
    value <= 15 ->
    let k := Z.max 1 (value * 2 + 1) in
    Z.odd k = true
    /\ 1 <= k <= 31
    /\ (exists out : image,
           ImageProcessor.blur
             GAUSSIAN value (ImageProcessor.mk (Some img) original) = Ok out
           /\ shape out = shape img
           /\ (value <= 0 -> out = img))
    /\ (0 <= value <= 15 -> k = 2 * value + 1 /\ k <= 31).
Proof.
  intros GAUSSIAN value img original Slider k.
  destruct (blur_kernel value) as (P & O & Pos & Neg). fold k in P, O, Pos, Neg.
  split; [exact O|]. split; [subst k; lia|]. split.
  - unfold ImageProcessor.blur, ImageProcessor.on_current.
    cbn [ImageProcessor.current_cv_image]. fold k.
    rewrite (GaussianBlur_ok GAUSSIAN img k P O).
    eexists. split; [reflexivity|]. split.
    + destruct (k =? 1); [reflexivity|apply shape_grid].
    + intros V. rewrite (Neg V). reflexivity.
  - intros V. split; [apply Pos|rewrite Pos]; lia.
Qed.

Lemma blur_kernel_is_valid_witness :
  ImageProcessor.blur nearest 0 (ImageProcessor.mk (Some photo) None)
  = Ok photo.
Proof.
  destruct (blur_kernel_is_valid nearest 0 photo None ltac:(lia))
    as (_ & _ & (out & E & _ & I) & _).
  rewrite E. now rewrite (I ltac:(lia)).
Defined.

(** X18. Edge detection returns an array of the shape of the current image
    whose pixels are all pure black or pure white, and grayscale leaves
    that array unchanged. *)
Theorem edges_output :
  forall (CANNY : cv2.edge_detector) (img : image)
         (original original' : option image),
  exists out : image,
    ImageProcessor.edges CANNY (ImageProcessor.mk (Some img) original)
    = Ok out
    /\ shape out = shape img
    /\ all_pixels is_black_or_white out = true
    /\ ImageProcessor.grayscale (ImageProcessor.mk (Some out) original')
       = Ok out.
Proof.
  intros CANNY img original original'.
  eexists. split; [reflexivity|]. split; [|split].
  - unfold cv2.cvtColor_GRAY2BGR, cv2.Canny.
    rewrite map_pixels_shape, shape_grid.
    apply map_pixels_shape.
  - unfold cv2.cvtColor_GRAY2BGR, cv2.Canny.
    rewrite all_pixels_map_pixels. apply all_pixels_grid.
    intros y x.
    now destruct (CANNY (cv2.cvtColor_BGR2GRAY img) (100, 200) y x).
  - unfold ImageProcessor.grayscale, ImageProcessor.on_current.
    cbn [ImageProcessor.current_cv_image].
    unfold cv2.cvtColor_GRAY2BGR, cv2.cvtColor_BGR2GRAY.
    rewrite !map_pixels_compose. unfold Ok. f_equal.
    apply map_pixels_ext. intros y. now rewrite luminance_gray.
Qed.

(** ** Saving and loading *)

(** X19. [save] and [save as] never change the images or the history,
    whatever the dialog and the encoder answer; the only thing they can
    change is the save path. *)
Theorem save_keeps_images :
  forall (imwrite : string -> image -> result bool) (answer : string)
         (self : ImageEditorApp.t),
    processor (fst (save imwrite answer self)) = processor self
    /\ history (fst (save imwrite answer self)) = history self
    /\ processor (fst (save_as imwrite answer self)) = processor self
    /\ history (fst (save_as imwrite answer self)) = history self.
Proof.
  intros imwrite answer self.
  destruct (save_frame imwrite answer self) as [P H].
  destruct (save_as_frame imwrite answer self) as [P' H'].
  now repeat split.
Qed.

(** With an image and a save path, [save] hands the current image to
    [cv2.imwrite] under that path without asking, and reports success
    whatever [imwrite] returns. *)
Lemma save_writes_current_image :
  forall (imwrite : string -> image -> result bool) (answer path : string)
         (self : ImageEditorApp.t) (cur : image) (written : bool),
    current self = Some cur ->
    current_path self = Some path ->
    String.eqb path "" = false ->
    imwrite path cur = Ok written ->
    save imwrite answer self
    = (self,
       [imwrite_call path cur; showinfo "Saved" "Image saved successfully!"]).
Proof.
  intros imwrite answer path self cur written C P NE W.
  unfold save. now rewrite C, P, NE, W.
Qed.

(** X20. Without a save path [save] is [save as].  A [save as] that writes
    makes the chosen path the save path, and the next [save] writes the
    current image there without asking; a dismissed dialog writes nothing
    and changes nothing. *)
Theorem save_as_sets_path :
  forall (imwrite : string -> image -> result bool)
         (answer later : string) (self : ImageEditorApp.t) (cur : image)
         (written : bool),
    current self = Some cur ->
    (current_path self = None ->
     save imwrite answer self = save_as imwrite answer self)
    /\ save_as imwrite "" self = (self, [])
    /\ (String.eqb answer "" = false ->
        imwrite answer cur = Ok written ->
        let self' := fst (save_as imwrite answer self) in
        current_path self' = Some answer
        /\ snd (save_as imwrite answer self)
           = [imwrite_call answer cur;
              showinfo "Saved" "Image saved successfully!"]
        /\ save imwrite later self'
           = (self',
              [imwrite_call answer cur;
               showinfo "Saved" "Image saved successfully!"])).
Proof.
  intros imwrite answer later self cur written C. split; [|split].
  - intros P. unfold save. now rewrite C, P.
  - unfold save_as. now rewrite C.
  - intros NE W self'.
    assert (E : self' = mk (processor self) (history self) (Some answer)).
    { subst self'. unfold save_as. now rewrite C, NE, W. }
    split; [now rewrite E|]. split.
    + unfold save_as. now rewrite C, NE, W.
    + rewrite E. unfold save, current in *. cbn. now rewrite C, NE, W.
Qed.

Lemma save_as_sets_path_witness :
  let self := mk (ImageProcessor.mk (Some dot) (Some photo))
                 (ImageHistory.mk [] []) None in
  let self' := fst (save_as (fun _ _ => Ok true) "copy.jpg" self) in
  current_path self' = Some "copy.jpg"%string
  /\ save (fun _ _ => Ok true) "" self'
     = (self',
        [imwrite_call "copy.jpg" dot;
         showinfo "Saved" "Image saved successfully!"]).
Proof.
  intros self self'.
  destruct (save_as_sets_path
              (fun _ _ => Ok true) "copy.jpg"%string ""%string self dot true
              eq_refl)
    as (_ & _ & H).
  destruct (H eq_refl eq_refl) as (P & _ & S).
  split; [exact P|exact S].
Defined.

(** X21. Opening a file and saving right away hands [cv2.imwrite] exactly
    the decoded image under the path it was read from, without asking for
    a path, and the box reports success whatever [imwrite] returns, also
    [False]. *)
Theorem open_then_save :
  forall (imread : string -> option image)
         (imwrite : string -> image -> result bool)
         (path answer : string) (img : image) (self : ImageEditorApp.t)
         (written : bool),
    String.eqb path "" = false ->
    imread path = Some img ->
    imwrite path img = Ok written ->
    let self' := after (open_image imread path) self in
    save imwrite answer self'
    = (self',
       [imwrite_call path img; showinfo "Saved" "Image saved successfully!"]).
Proof.
  intros imread imwrite path answer img self written NE R W self'.
  assert (E : self' = fst (open_image imread path self)) by reflexivity.
  rewrite (open_image_success imread path self img NE R) in E.
  cbn [fst] in E. rewrite E.
  apply (save_writes_current_image imwrite answer path _ img written);
    try reflexivity; assumption.
Qed.

Lemma open_then_save_witness :
  snd (save (fun _ _ => Ok true) ""
            (after (open_image disk "photo.png") init))
  = [imwrite_call "photo.png" photo;
     showinfo "Saved" "Image saved successfully!"].
Proof.
  exact (f_equal snd
           (open_then_save disk (fun _ _ => Ok true)
                           "photo.png"%string ""%string photo init true
                           eq_refl eq_refl eq_refl)).
Defined.

(** ** The file name in the status bar *)

Lemma split_not_nil (sep : ascii) (s : string) : split sep s <> [].
Proof.
  destruct s as [|c s]; cbn; [discriminate|].
  destruct (Ascii.eqb c sep); [discriminate|].
  destruct (split sep s); discriminate.
Qed.

Lemma split_append (sep : ascii) (a b : string) :
  split sep (a ++ String sep b) = split sep a ++ split sep b.
Proof.
  induction a as [|c a IH]; cbn [String.append split].
  - now rewrite Ascii.eqb_refl.
  - destruct (Ascii.eqb c sep); [now rewrite IH|].
    rewrite IH.
    destruct (split sep a) as [|piece pieces] eqn:E; [|reflexivity].
    now apply split_not_nil in E.
Qed.

Lemma split_without_separator (sep : ascii) (s : string) :
  contains sep s = false -> split sep s = [s].
Proof.
  induction s as [|c s IH]; cbn [contains split]; [reflexivity|].
  intros H. apply orb_false_iff in H. destruct H as [C R].
  rewrite C, (IH R). reflexivity.
Qed.

Lemma split_pieces (sep : ascii) (s : string) :
  Forall (fun piece => contains sep piece = false) (split sep s).
Proof.
  induction s as [|c s IH]; cbn [split].
  - now constructor.
  - destruct (Ascii.eqb c sep) eqn:E; [now constructor|].
    destruct (split sep s) as [|piece pieces]; [|inversion IH; subst].
    + constructor; [|constructor]. cbn. now rewrite E.
    + constructor; [|assumption]. cbn. now rewrite E.
Qed.

Lemma last_append {A : Type} (l1 l2 : list A) (d : A) :
  l2 <> [] -> last (l1 ++ l2) d = last l2 d.
Proof.
  intros NE. induction l1 as [|x l1 IH]; [reflexivity|].
  cbn [app]. rewrite <- IH. cbn [last].
  destruct (l1 ++ l2) eqn:E; [|reflexivity].
  apply app_eq_nil in E. now destruct E.
Qed.

(** X22. The file name shown for a save path is what follows its last
    slash: for a path [dir/name] with no slash in [name] it is [name], and
    a path without any slash is shown whole. *)
Theorem get_filename_is_last_component :
  forall (self : ImageEditorApp.t) (dir name : string),
    contains "/" name = false ->
    (current_path self = Some (dir ++ String "/" name)%string ->
     get_filename self = name)
    /\ (current_path self = Some name -> name <> ""%string ->
        get_filename self = name).
Proof.
  intros self dir name N. split.
  - intros P. unfold get_filename. rewrite P.
    replace (String.eqb (dir ++ String "/" name) "") with false
      by (now destruct dir).
    rewrite split_append, last_append by apply split_not_nil.
    now rewrite (split_without_separator _ _ N).
  - intros P NE. unfold get_filename. rewrite P.
    destruct (String.eqb_spec name ""); [contradiction|].
    now rewrite (split_without_separator _ _ N).
Qed.

Lemma get_filename_is_last_component_witness :
  get_filename
    (mk ImageProcessor.init ImageHistory.init
        (Some "/home/user/pictures/cat.png"%string))
  = "cat.png"%string.
Proof.
  exact (proj1 (get_filename_is_last_component
                  (mk ImageProcessor.init ImageHistory.init
                      (Some "/home/user/pictures/cat.png"%string))
                  "/home/user/pictures"%string "cat.png"%string eq_refl)
               eq_refl).
Defined.

(** X23. Whatever the save path is, the file name shown never contains a
    slash. *)
Theorem get_filename_has_no_slash :
  forall self : ImageEditorApp.t,
    contains "/" (get_filename self) = false.
Proof.
  intros self. unfold get_filename.
  destruct (current_path self) as [path|]; [|reflexivity].
  destruct (String.eqb path ""); [reflexivity|].
  pose proof (split_pieces "/" path) as F.
  pose proof (split_not_nil "/" path) as NE.
  destruct (exists_last NE) as (pieces & piece & E).
  rewrite E in *. rewrite last_last.
  apply Forall_app in F. destruct F as [_ F]. now inversion F.
Qed.

(** ** The loading overlay *)

Lemma loading_states (calls : list LoadingScreen.call) :
  forall s : LoadingScreen.t,
    s = LoadingScreen.init
    \/ (exists w, s = LoadingScreen.mk (Some w) true) ->
    LoadingScreen.run calls s = LoadingScreen.init
    \/ (exists w, LoadingScreen.run calls s = LoadingScreen.mk (Some w) true).
Proof.
  unfold LoadingScreen.run.
  induction calls as [|c calls IH]; intros s I; [exact I|].
  cbn [fold_left]. apply IH.
  destruct c as [parent|]; destruct I as [->|[w ->]]; cbn.
  - right. eexists. reflexivity.
  - right. eexists. reflexivity.
  - now left.
  - now left.
Qed.

(** X24. Starting hidden, after any sequence of [show] and [hide] the flag
    [is_showing] is set exactly when the overlay window exists; one [hide]
    then always ends hidden, and a [show] while the overlay is up changes
    nothing, so at most one overlay exists. *)
Theorem loading_screen_consistent :
  forall (calls : list LoadingScreen.call)
         (parent parent' : LoadingScreen.parent_window),
    let s := LoadingScreen.run calls LoadingScreen.init in
    (LoadingScreen.is_showing s = true
     <-> LoadingScreen.loading_window s <> None)
    /\ LoadingScreen.hide s = LoadingScreen.init
    /\ LoadingScreen.is_showing (LoadingScreen.show parent s) = true
    /\ LoadingScreen.show parent' (LoadingScreen.show parent s)
       = LoadingScreen.show parent s.
Proof.
  intros calls parent parent' s.
  destruct (loading_states calls LoadingScreen.init (or_introl eq_refl))
    as [E|[w E]]; fold s in E; rewrite E; cbn.
  - repeat split; try discriminate. intros H. now contradiction H.
  - repeat split; discriminate.
Qed.

Lemma loading_screen_consistent_witness :
  let s := LoadingScreen.run
             [LoadingScreen.Hide;
              LoadingScreen.Show (LoadingScreen.Build_parent_window 0 0 1200 800);
              LoadingScreen.Show (LoadingScreen.Build_parent_window 5 5 640 480)]
             LoadingScreen.init in
  LoadingScreen.loading_window s <> None
  /\ LoadingScreen.is_showing s = true.
Proof.
  intros s.
  destruct (loading_screen_consistent
              [LoadingScreen.Hide;
               LoadingScreen.Show
                 (LoadingScreen.Build_parent_window 0 0 1200 800);
               LoadingScreen.Show
                 (LoadingScreen.Build_parent_window 5 5 640 480)]
              (LoadingScreen.Build_parent_window 0 0 1200 800)
              (LoadingScreen.Build_parent_window 0 0 1200 800))
    as ([_ H] & _).
  assert (N : LoadingScreen.loading_window s <> None) by discriminate.
  split; [exact N|exact (H N)].
Defined.

(** X25. The overlay is 300 by 150 and centred on the parent window: its
    centre is the parent's centre, at most half a pixel to the left and
    above, whatever the parent's position and size. *)
Theorem loading_screen_centred :
  forall parent : LoadingScreen.parent_window,
  exists w : LoadingScreen.Toplevel,
    LoadingScreen.loading_window
      (LoadingScreen.show parent LoadingScreen.init) = Some w
    /\ LoadingScreen.geometry_width w = 300
    /\ LoadingScreen.geometry_height w = 150
    /\ 0 <= (2 * LoadingScreen.winfo_x parent
             + LoadingScreen.winfo_width parent)
            - (2 * LoadingScreen.geometry_x w + 300) <= 1
    /\ 0 <= (2 * LoadingScreen.winfo_y parent
             + LoadingScreen.winfo_height parent)
            - (2 * LoadingScreen.geometry_y w + 150) <= 1.
Proof.
  intros [px py pw ph]. eexists. split; [reflexivity|].
  cbn [LoadingScreen.geometry_width LoadingScreen.geometry_height
       LoadingScreen.geometry_x LoadingScreen.geometry_y
       LoadingScreen.winfo_x LoadingScreen.winfo_y
       LoadingScreen.winfo_width LoadingScreen.winfo_height].
  split; [reflexivity|]. split; [reflexivity|].
  pose proof (Z.div_mod (pw - 300) 2 ltac:(lia)).
  pose proof (Z.mod_pos_bound (pw - 300) 2 ltac:(lia)).
  pose proof (Z.div_mod (ph - 150) 2 ltac:(lia)).
  pose proof (Z.mod_pos_bound (ph - 150) 2 ltac:(lia)).
  lia.
Qed.
